(** * EulerPC: the Euler predictor / Richardson corrector IRC integrator

    A shallow embedding of [pysisyphus/irc/EulerPC.py].  The numerical
    kernel (NumPy scalars and arrays) is abstracted by the class [Arith];
    the control flow of [step] and [corrector_step] is written once over
    that class and then run at two instances: IEEE binary64 numbers
    ([PrimFloat], what NumPy computes with) and the real numbers (the
    arithmetic the algorithm is designed in).

    The collaborators of [EulerPC] that live in other modules enter as
    section variables: the calculator behind [self.mw_gradient],
    [self.energy] and [self.mw_hessian], [DWI.interpolate], the Hessian
    update rule, [IRC.unweight_vec] and [self.m_sqrt].  Log messages are
    not modelled; the [while True] loop of the corrector takes fuel. *)

From Stdlib Require Import ZArith Floats Reals Lra Lia.
From stdpp Require Import gmap list strings.


(** ** Scalars *)

(** The operations of a Python/NumPy float that the integrator uses.
    Integer literals and integer-valued expressions enter float
    arithmetic through [fofZ]. *)
Class Arith (F : Type) := {
  fofZ : Z -> F;
  fadd : F -> F -> F;
  fsub : F -> F -> F;
  fmul : F -> F -> F;
  fdiv : F -> F -> F;
  fopp : F -> F;
  fabs : F -> F;
  fsqrt : F -> F;
  fltb : F -> F -> bool;
  fleb : F -> F -> bool
}.

Declare Scope num_scope.
Delimit Scope num_scope with num.
Infix "+" := fadd : num_scope.
Infix "-" := fsub : num_scope.
Infix "*" := fmul : num_scope.
Infix "/" := fdiv : num_scope.
Notation "- x" := (fopp x) : num_scope.
Infix "<?" := fltb : num_scope.
Infix "<=?" := fleb : num_scope.

(** IEEE binary64. *)
Definition float_of_Z (z : Z) : float :=
  if (z <? 0)%Z then PrimFloat.opp (PrimFloat.of_uint63 (Uint63.of_Z (Z.opp z)))
  else PrimFloat.of_uint63 (Uint63.of_Z z).

#[export] Instance float_arith : Arith float := {|
  fofZ := float_of_Z;
  fadd := PrimFloat.add;
  fsub := PrimFloat.sub;
  fmul := PrimFloat.mul;
  fdiv := PrimFloat.div;
  fopp := PrimFloat.opp;
  fabs := PrimFloat.abs;
  fsqrt := PrimFloat.sqrt;
  fltb := PrimFloat.ltb;
  fleb := PrimFloat.leb
|}.

(** Exact real arithmetic. *)
Definition Rltb (x y : R) : bool := if Rlt_dec x y then true else false.
Definition Rleb (x y : R) : bool := if Rle_dec x y then true else false.

#[export] Instance real_arith : Arith R := {|
  fofZ := IZR;
  fadd := Rplus;
  fsub := Rminus;
  fmul := Rmult;
  fdiv := Rdiv;
  fopp := Ropp;
  fabs := Rabs;
  fsqrt := sqrt;
  fltb := Rltb;
  fleb := Rleb
|}.

(** ** Arrays *)

Section Arrays.
Context {F : Type} `{Arith F}.
Local Open Scope num_scope.

(** A one-dimensional [ndarray] and a two-dimensional one (rows). *)
Definition vec := list F.
Definition matrix := list vec.

Definition vadd (u v : vec) : vec := zip_with fadd u v.
Definition vsub (u v : vec) : vec := zip_with fsub u v.
(** [u / v], element by element. *)
Definition vdiv (u v : vec) : vec := zip_with fdiv u v.
(** [c * v] for a scalar [c]. *)
Definition vscale (c : F) (v : vec) : vec := map (fmul c) v.
(** [v / c] for a scalar [c]. *)
Definition vdivs (v : vec) (c : F) : vec := map (fun x => x / c) v.
Definition vopp (v : vec) : vec := map fopp v.
(** [v ** 2]. *)
Definition vsquare (v : vec) : vec := map (fun x => x * x) v.
(** [np.sum]; the order in which NumPy adds is not modelled, and nothing
    below depends on it. *)
Definition vsum (v : vec) : F := foldr fadd (fofZ 0) v.
(** [np.linalg.norm]. *)
Definition norm (v : vec) : F := fsqrt (vsum (vsquare v)).
(** [np.mean]. *)
Definition mean (v : vec) : F := vsum v / fofZ (Z.of_nat (length v)).

Definition dot (u v : vec) : F := vsum (zip_with fmul u v).
(** [A @ v]. *)
Definition mat_vec (A : matrix) (v : vec) : vec := map (fun row => dot row v) A.
Definition madd (A B : matrix) : matrix := zip_with vadd A B.

(** Python's [max(a, b)]: the first argument unless the second is
    strictly greater. *)
Definition pymax (a b : F) : F := if a <? b then b else a.
End Arrays.

Arguments vec : clear implicits.
Arguments matrix : clear implicits.

(** ** Results of fallible, possibly non-terminating code *)

Inductive exn : Set :=
| IndexError
| KeyError
| UnboundLocalError
| RichardsonDidNotConverge.

Inductive res (A : Type) : Type :=
| Ok (a : A)
| Raise (e : exn)
| OutOfFuel.
Arguments Ok {A} a.
Arguments Raise {A} e.
Arguments OutOfFuel {A}.

#[export] Instance res_ret : MRet res := fun A a => Ok a.
#[export] Instance res_bind : MBind res := fun A B k m =>
  match m with
  | Ok a => k a
  | Raise e => Raise e
  | OutOfFuel => OutOfFuel
  end.
#[export] Instance res_fmap : FMap res := fun A B f m =>
  match m with
  | Ok a => Ok (f a)
  | Raise e => Raise e
  | OutOfFuel => OutOfFuel
  end.

(** [l[-1]] and [l[-2]]. *)
Definition last1 {A : Type} (l : list A) : option A := rev l !! 0%nat.
Definition last2 {A : Type} (l : list A) : option A := rev l !! 1%nat.

Definition index_or_raise {A : Type} (o : option A) : res A :=
  match o with Some a => Ok a | None => Raise IndexError end.
Definition key_or_raise {A : Type} (o : option A) : res A :=
  match o with Some a => Ok a | None => Raise KeyError end.

(** ** The integrator *)

(** One DWI sample: what [DWI.update(coords, energy, gradient, hessian)]
    stores. *)
Record sample (F : Type) : Type := Sample {
  s_coords : vec F;
  s_energy : F;
  s_gradient : vec F;
  s_hessian : matrix F
}.
Arguments Sample {F} _ _ _ _.
Arguments s_coords {F} _.
Arguments s_energy {F} _.
Arguments s_gradient {F} _.
Arguments s_hessian {F} _.

(** How one level of the corrector's [while True] march ends. *)
Inductive march_exit (F : Type) : Type :=
| MarchDone (k_coords : list (vec F)) (cur_coords : vec F)
| MarchOscillation (prev_coords : vec F)
| MarchOutOfFuel.
Arguments MarchDone {F} _ _.
Arguments MarchOscillation {F} _.
Arguments MarchOutOfFuel {F}.

(** The two [return] statements of [corrector_step]. *)
Inductive corrector_exit (F : Type) : Type :=
| Converged (k : nat) (corrected : vec F)
| Oscillation (k : nat) (prev_coords : vec F).
Arguments Converged {F} _ _.
Arguments Oscillation {F} _ _.

Definition exit_point {F : Type} (e : corrector_exit F) : vec F :=
  match e with
  | Converged _ p => p
  | Oscillation _ p => p
  end.

Section Corrector.
Context {F : Type} `{Arith F}.
Local Open Scope num_scope.

(** [self.m_sqrt]: the square roots of the atomic masses, one entry per
    Cartesian coordinate. *)
Variable m_sqrt : vec F.

(** [DWI.interpolate(coords, gradient=True)] of [pysisyphus/irc/DWI.py],
    a function of the stored samples and the query point; it returns
    [(energy, gradient)]. *)
Variable dwi_interpolate : list (sample F) -> vec F -> F * vec F.

(** [get_integration_length_func(init_mw_coords)(cur_mw_coords)]. *)
Definition get_integration_length (init_mw_coords cur_mw_coords : vec F) : F :=
  norm (vdiv (vsub cur_mw_coords init_mw_coords) m_sqrt).

(** [points = 20*(2**k)]. *)
Definition points (k : nat) : Z := (20 * 2 ^ Z.of_nat k)%Z.

(** [corr_step_length = step_length / (points - 1)]. *)
Definition corr_step_length (step_length : F) (k : nat) : F :=
  step_length / fofZ (points k - 1).

(** One micro-step:
    [cur_coords += corr_step_length * -gradient/np.linalg.norm(gradient)]. *)
Definition micro_step (dwi : list (sample F)) (c : F) (cur_coords : vec F) : vec F :=
  let gradient := snd (dwi_interpolate dwi cur_coords) in
  vadd cur_coords (vdivs (vscale c (vopp gradient)) (norm gradient)).

(** The [while True] loop of one refinement level.  [k_coords],
    [cur_coords] and [cur_length] are the loop's variables at the top of
    an iteration. *)
Fixpoint march (fuel : nat) (dwi : list (sample F)) (init_mw_coords : vec F)
    (step_length c : F) (k_coords : list (vec F)) (cur_coords : vec F)
    (cur_length : F) : march_exit F :=
  match fuel with
  | O => MarchOutOfFuel
  | S fuel' =>
    let k_coords := k_coords ++ [cur_coords] in
    if fabs (step_length - cur_length) <? (fofZ 1 / fofZ 2) * c then
      MarchDone k_coords cur_coords
    else
      let cur_coords := micro_step dwi c cur_coords in
      let cur_length := get_integration_length init_mw_coords cur_coords in
      match last2 k_coords with
      | Some prev_coords =>
        let osc_norm := norm (vsub cur_coords prev_coords) in
        if osc_norm <=? c then MarchOscillation prev_coords
        else march fuel' dwi init_mw_coords step_length c k_coords cur_coords cur_length
      | None =>
        march fuel' dwi init_mw_coords step_length c k_coords cur_coords cur_length
      end
  end.

(** The march of level [k], from its initial values. *)
Definition march_level (fuel : nat) (dwi : list (sample F))
    (init_mw_coords : vec F) (step_length : F) (k : nat) : march_exit F :=
  march fuel dwi init_mw_coords step_length (corr_step_length step_length k)
        [] init_mw_coords (fofZ 0).

(** The right-hand side of the Richardson assignment:
    [((2**j) * R[(k, j-1)] - R[(k-1, j-1)]) / (2**j-1)]. *)
Definition richardson_formula (j : nat) (a b : vec F) : vec F :=
  vdivs (vsub (vscale (fofZ (2 ^ Z.of_nat j)) a) b) (fofZ (2 ^ Z.of_nat j - 1)).

(** [for j in range(1, k+1): richardson[(k, j)] = ...], over the values
    of [j] still to do. *)
Fixpoint extrapolate (k : nat) (js : list nat)
    (richardson : gmap (nat * nat) (vec F)) : res (gmap (nat * nat) (vec F)) :=
  match js with
  | [] => Ok richardson
  | j :: js' =>
    a ← key_or_raise (richardson !! (k, j - 1)%nat);
    b ← key_or_raise (richardson !! (k - 1, j - 1)%nat);
    extrapolate k js' (<[(k, j) := richardson_formula j a b]> richardson)
  end.

(** [np.sqrt(np.mean((a - b)**2))]. *)
Definition rms_error (a b : vec F) : F := fsqrt (mean (vsquare (vsub a b))).

(** The literal [1e-5]. *)
Definition richardson_tol : F := fofZ 1 / fofZ 100000.

(** [for k in range(15): ... else: raise], over the levels still to do.
    The second component is the Richardson table when the function is
    left. *)
Fixpoint corrector_levels (fuel : nat) (dwi : list (sample F))
    (init_mw_coords : vec F) (step_length : F) (ks : list nat)
    (richardson : gmap (nat * nat) (vec F))
    : res (corrector_exit F) * gmap (nat * nat) (vec F) :=
  match ks with
  | [] => (Raise RichardsonDidNotConverge, richardson)
  | k :: ks' =>
    match march_level fuel dwi init_mw_coords step_length k with
    | MarchOutOfFuel => (OutOfFuel, richardson)
    | MarchOscillation prev_coords => (Ok (Oscillation k prev_coords), richardson)
    | MarchDone _ cur_coords =>
      let richardson0 := <[(k, 0%nat) := cur_coords]> richardson in
      match extrapolate k (seq 1 k) richardson0 with
      | Ok richardson1 =>
        if (0 <? k)%nat then
          match richardson1 !! (k, k), richardson1 !! (k, k - 1)%nat with
          | Some rkk, Some rkk1 =>
            if rms_error rkk rkk1 <=? richardson_tol
            then (Ok (Converged k rkk), richardson1)
            else corrector_levels fuel dwi init_mw_coords step_length ks' richardson1
          | _, _ => (Raise KeyError, richardson1)
          end
        else corrector_levels fuel dwi init_mw_coords step_length ks' richardson1
      | Raise e => (Raise e, richardson0)
      | OutOfFuel => (OutOfFuel, richardson0)
      end
    end
  end.

(** [corrector_step] together with its Richardson table. *)
Definition corrector_run (fuel : nat) (init_mw_coords : vec F) (step_length : F)
    (dwi : list (sample F)) : res (corrector_exit F) * gmap (nat * nat) (vec F) :=
  corrector_levels fuel dwi init_mw_coords step_length (seq 0 15) ∅.

(** [corrector_step(init_mw_coords, step_length, dwi)]: the returned
    coordinates, or the exception. *)
Definition corrector_step (fuel : nat) (init_mw_coords : vec F) (step_length : F)
    (dwi : list (sample F)) : res (vec F) :=
  exit_point <$> fst (corrector_run fuel init_mw_coords step_length dwi).
End Corrector.


(** ** The macro-step *)

(** The options of [EulerPC.__init__] (and of [IRC.__init__]) that [step]
    reads. *)
Record config (F : Type) : Type := Config {
  step_length : F;
  max_pred_steps : Z;
  rms_grad_thresh : F;
  hessian_recalc : option Z
}.
Arguments Config {F} _ _ _ _.
Arguments step_length {F} _.
Arguments max_pred_steps {F} _.
Arguments rms_grad_thresh {F} _.
Arguments hessian_recalc {F} _.

(** What [step] asks of its collaborators, in the order it asks. *)
Inductive call (F : Type) : Type :=
| CalcGradient (coords : vec F)
| CalcEnergy (coords : vec F)
| CalcHessian (coords : vec F)
| HessianUpdate (H : matrix F) (dx dg : vec F)
| DwiUpdate (s : sample F).
Arguments CalcGradient {F} _.
Arguments CalcEnergy {F} _.
Arguments CalcHessian {F} _.
Arguments HessianUpdate {F} _ _ _.
Arguments DwiUpdate {F} _.

(** The attributes of [self] that [step] reads or writes, and the log of
    the calls it made. *)
Record state (F : Type) : Type := State {
  cur_cycle : Z;
  mw_coords : vec F;
  mw_H : matrix F;
  dwi : list (sample F);
  irc_mw_coords : list (vec F);
  irc_mw_gradients : list (vec F);
  converged : bool;
  calls : list (call F)
}.
Arguments State {F} _ _ _ _ _ _ _ _.
Arguments cur_cycle {F} _.
Arguments mw_coords {F} _.
Arguments mw_H {F} _.
Arguments dwi {F} _.
Arguments irc_mw_coords {F} _.
Arguments irc_mw_gradients {F} _.
Arguments converged {F} _.
Arguments calls {F} _.

Definition set_mw_coords {F} (x : vec F) (st : state F) : state F :=
  State (cur_cycle st) x (mw_H st) (dwi st) (irc_mw_coords st)
        (irc_mw_gradients st) (converged st) (calls st).
Definition set_mw_H {F} (h : matrix F) (st : state F) : state F :=
  State (cur_cycle st) (mw_coords st) h (dwi st) (irc_mw_coords st)
        (irc_mw_gradients st) (converged st) (calls st).
Definition set_converged {F} (b : bool) (st : state F) : state F :=
  State (cur_cycle st) (mw_coords st) (mw_H st) (dwi st) (irc_mw_coords st)
        (irc_mw_gradients st) b (calls st).
Definition log_call {F} (c : call F) (st : state F) : state F :=
  State (cur_cycle st) (mw_coords st) (mw_H st) (dwi st) (irc_mw_coords st)
        (irc_mw_gradients st) (converged st) (calls st ++ [c]).
(** [self.dwi.update(coords, energy, gradient, hessian)]. *)
Definition dwi_update {F} (s : sample F) (st : state F) : state F :=
  State (cur_cycle st) (mw_coords st) (mw_H st) (dwi st ++ [s]) (irc_mw_coords st)
        (irc_mw_gradients st) (converged st) (calls st ++ [DwiUpdate s]).

(** How the predictor's [for] loop is left. *)
Inductive euler_exit : Set := ReachedTarget | ExhaustedBudget.

(** The loop's variables when it is left, and every [cur_length] it
    computed, oldest first. *)
Record euler_result (F : Type) : Type := EulerResult {
  e_exit : euler_exit;
  euler_mw_coords : vec F;
  euler_mw_grad : vec F;
  cur_lengths : list F
}.
Arguments EulerResult {F} _ _ _ _.
Arguments e_exit {F} _.
Arguments euler_mw_coords {F} _.
Arguments euler_mw_grad {F} _.
Arguments cur_lengths {F} _.

Section Step.
Context {F : Type} `{Arith F}.
Local Open Scope num_scope.

Variable m_sqrt : vec F.
Variable dwi_interpolate : list (sample F) -> vec F -> F * vec F.

(** The calculator behind [self.mw_gradient], [self.energy] and
    [self.mw_hessian], as functions of the current mass-weighted
    coordinates. *)
Variable calc_mw_gradient : vec F -> vec F.
Variable calc_energy : vec F -> F.
Variable calc_mw_hessian : vec F -> matrix F.

(** [self.hessian_update_func(H, dx, dg)], returning [(dH, key)]. *)
Variable hessian_update_func : matrix F -> vec F -> vec F -> matrix F * String.string.

(** [IRC.unweight_vec]. *)
Variable unweight_vec : vec F -> vec F.

Variable cfg : config F.

(** Modelled from the spec: [pysisyphus.helpers.rms], "the
    root-mean-square". *)
Definition rms (v : vec F) : F := fsqrt (mean (vsquare v)).

Definition read_mw_gradient (st : state F) : vec F * state F :=
  (calc_mw_gradient (mw_coords st), log_call (CalcGradient (mw_coords st)) st).
Definition read_energy (st : state F) : F * state F :=
  (calc_energy (mw_coords st), log_call (CalcEnergy (mw_coords st)) st).
Definition read_mw_hessian (st : state F) : matrix F * state F :=
  (calc_mw_hessian (mw_coords st), log_call (CalcHessian (mw_coords st)) st).

(** [dH, key = self.hessian_update_func(self.mw_H, dx, dg); self.mw_H += dH]. *)
Definition quasi_newton (dx dg : vec F) (st : state F) : state F :=
  let dH := fst (hessian_update_func (mw_H st) dx dg) in
  set_mw_H (madd (mw_H st) dH) (log_call (HessianUpdate (mw_H st) dx dg) st).

(** [self.hessian_recalc and (self.cur_cycle % self.hessian_recalc == 0)]. *)
Definition recalc_due (cur_cycle : Z) : bool :=
  match hessian_recalc cfg with
  | None => false
  | Some n => negb (n =? 0)%Z && (cur_cycle mod n =? 0)%Z
  end.

(** Lines 77-87: the Hessian and the DWI are brought up to date with
    the current point. *)
Definition refresh_hessian (mw_grad : vec F) (energy : F) (st : state F)
    : res (state F) :=
  if (0 <? cur_cycle st)%Z then
    st ← (if recalc_due (cur_cycle st) then
             let '(h, st) := read_mw_hessian st in
             Ok (set_mw_H h st)
           else
             x2 ← index_or_raise (last2 (irc_mw_coords st));
             let dx := vsub (mw_coords st) x2 in
             g2 ← index_or_raise (last2 (irc_mw_gradients st));
             let dg := vsub mw_grad g2 in
             Ok (quasi_newton dx dg st));
    Ok (dwi_update (Sample (mw_coords st) energy mw_grad (mw_H st)) st)
  else Ok st.

(** Lines 113-118. *)
Definition conv_fact (mw_grad : vec F) : F :=
  let norm_mw_grad := norm mw_grad in
  let norm_grad := norm (unweight_vec mw_grad) in
  pymax (fofZ 2) (norm_grad / norm_mw_grad).

Definition euler_step_length (mw_grad : vec F) : F :=
  step_length cfg / (fofZ (max_pred_steps cfg) / conv_fact mw_grad).

(** [mw_grad + self.mw_H @ step]. *)
Definition taylor_gradient (mw_grad : vec F) (H : matrix F) (step : vec F) : vec F :=
  vadd mw_grad (mat_vec H step).

(** The [for i in range(self.max_pred_steps)] loop, over the
    iterations still to do. *)
Fixpoint euler_loop (n : nat) (init_mw_coords mw_grad : vec F) (H : matrix F)
    (h : F) (coords grad : vec F) (lengths : list F) : euler_result F :=
  match n with
  | O => EulerResult ExhaustedBudget coords grad lengths
  | S n' =>
    let cur_length := get_integration_length m_sqrt init_mw_coords coords in
    let lengths := lengths ++ [cur_length] in
    if step_length cfg <=? cur_length then
      EulerResult ReachedTarget coords grad lengths
    else
      let step_ := vdivs (vscale h (vopp grad)) (norm grad) in
      let coords := vadd coords step_ in
      let euler_step := vsub coords init_mw_coords in
      let grad := taylor_gradient mw_grad H euler_step in
      euler_loop n' init_mw_coords mw_grad H h coords grad lengths
  end.

(** The predictor's Euler integration from the current point of [st],
    with the gradient [mw_grad] read there. *)
Definition predictor (mw_grad : vec F) (st : state F) : euler_result F :=
  euler_loop (Z.to_nat (max_pred_steps cfg)) (mw_coords st) mw_grad (mw_H st)
             (euler_step_length mw_grad) (mw_coords st) mw_grad [].

(** Lines 174-188: evaluation at the predicted point, Hessian update
    and DWI update. *)
Definition evaluate_endpoint (r : euler_result F) (st : state F) : res (state F) :=
  let st := set_mw_coords (euler_mw_coords r) st in
  let '(mw_grad, st) := read_mw_gradient st in
  let '(energy, st) := read_energy st in
  x1 ← index_or_raise (last1 (irc_mw_coords st));
  let dx := vsub (mw_coords st) x1 in
  g1 ← index_or_raise (last1 (irc_mw_gradients st));
  let dg := vsub mw_grad g1 in
  let st := quasi_newton dx dg st in
  Ok (dwi_update (Sample (mw_coords st) energy mw_grad (mw_H st)) st).

(** Lines 174-195: the above, and then the corrector. *)
Definition after_predictor (fuel : nat) (init_mw_coords : vec F)
    (r : euler_result F) (st : state F) : res (state F) :=
  st ← evaluate_endpoint r st;
  corrected_mw_coords ←
    corrector_step m_sqrt dwi_interpolate fuel init_mw_coords (step_length cfg) (dwi st);
  Ok (set_mw_coords corrected_mw_coords st).

(** The [else] branch of the predictor's loop (lines 152-171); the flag
    says whether it ended in [return]. *)
Definition on_exhausted (r : euler_result F) (st : state F)
    : state F * bool :=
  let st := set_mw_coords (euler_mw_coords r) st in
  let euler_grad := unweight_vec (euler_mw_grad r) in
  let rms_grad := rms euler_grad in
  if rms_grad <=? fofZ 5 * rms_grad_thresh cfg
  then (set_converged true st, true)
  else (st, false).

(** Lines 151-195: what [step] does once the predictor's loop is left. *)
Definition finish_step (fuel : nat) (init_mw_coords : vec F)
    (r : euler_result F) (st : state F) : res (state F) :=
  match e_exit r with
  | ReachedTarget => after_predictor fuel init_mw_coords r st
  | ExhaustedBudget =>
    let '(st, returned) := on_exhausted r st in
    if returned then Ok st
    else after_predictor fuel init_mw_coords r st
  end.

(** [EulerPC.step].  With [max_pred_steps <= 0] the loop runs over an
    empty [range] and leaves [i] unbound, so that the [else] branch fails
    on its log message (for 0, Python's own floats fail before that, on
    the division of line 118). *)
Definition step (fuel : nat) (st : state F) : res (state F) :=
  let '(mw_grad, st) := read_mw_gradient st in
  let '(energy, st) := read_energy st in
  st ← refresh_hessian mw_grad energy st;
  let init_mw_coords := mw_coords st in
  if (max_pred_steps cfg <=? 0)%Z then Raise UnboundLocalError
  else finish_step fuel init_mw_coords (predictor mw_grad st) st.
End Step.

(** ** Construction and preparation *)

(** What [EulerPC.__init__] sets, next to what the base class built. *)
Record euler_pc (F B : Type) : Type := EulerPC {
  pc_base : B;
  pc_hessian_recalc : option Z;
  pc_hessian_update_func : matrix F -> vec F -> vec F -> matrix F * String.string;
  pc_max_pred_steps : Z;
  pc_dump_dwi : bool
}.
Arguments EulerPC {F B} _ _ _ _ _.
Arguments pc_base {F B} _.
Arguments pc_hessian_recalc {F B} _.
Arguments pc_hessian_update_func {F B} _.
Arguments pc_max_pred_steps {F B} _.
Arguments pc_dump_dwi {F B} _.

(** The attributes of the transition state that [prepare] reads. *)
Record ts_data (F : Type) : Type := TsData {
  ts_hessian : matrix F;
  ts_mw_coords : vec F;
  ts_mw_gradient : vec F
}.
Arguments TsData {F} _ _ _.
Arguments ts_hessian {F} _.
Arguments ts_mw_coords {F} _.
Arguments ts_mw_gradient {F} _.

(** [self.dwi = DWI()]. *)
Definition set_dwi {F} (d : list (sample F)) (st : state F) : state F :=
  State (cur_cycle st) (mw_coords st) (mw_H st) d (irc_mw_coords st)
        (irc_mw_gradients st) (converged st) (calls st).

Section Setup.
Context {F : Type} `{Arith F}.
Local Open Scope num_scope.

(** The values of keyword arguments, and the object [IRC.__init__]
    builds from the positional and keyword arguments. *)
Variable V B : Type.
Variable irc_init : list V -> gmap string V -> res B.

(** [bfgs_update] and [bofill_update] of
    [pysisyphus.optimizers.hessian_updates]. *)
Variable bfgs_update : matrix F -> vec F -> vec F -> matrix F * String.string.
Variable bofill_update : matrix F -> vec F -> vec F -> matrix F * String.string.

(** The dict [{"bfgs": bfgs_update, "bofill": bofill_update}]. *)
Definition hessian_update : gmap string (matrix F -> vec F -> vec F -> matrix F * String.string) :=
  <["bofill"%string := bofill_update]> (<["bfgs"%string := bfgs_update]> ∅).

(** [EulerPC.__init__], for an integer [max_pred_steps]. *)
Definition init (args : list V) (kwargs : gmap string V) (hessian_recalc : option Z)
    (hessian_update_name : string) (max_pred_steps : Z) (rms_grad_thresh : V)
    (dump_dwi : bool) : res (euler_pc F B) :=
  let kwargs := <["rms_grad_thresh"%string := rms_grad_thresh]> kwargs in
  b ← irc_init args kwargs;
  f ← key_or_raise (hessian_update !! hessian_update_name);
  Ok (EulerPC b hessian_recalc f max_pred_steps dump_dwi).

Variable calc_mw_gradient : vec F -> vec F.
Variable calc_energy : vec F -> F.
Variable hessian_update_func : matrix F -> vec F -> vec F -> matrix F * String.string.

(** [IRC.prepare] and [Geometry.mass_weigh_hessian]. *)
Variable irc_prepare : state F -> res (state F).
Variable mass_weigh_hessian : matrix F -> matrix F.

(** [EulerPC.prepare]; [ts] holds the transition-state attributes as
    they are once the base class has prepared. *)
Definition prepare (ts : ts_data F) (st : state F) : res (state F) :=
  st ← irc_prepare st;
  let st := set_dwi [] st in
  let '(mw_grad, st) := read_mw_gradient calc_mw_gradient st in
  let '(energy, st) := read_energy calc_energy st in
  let st := set_mw_H (mass_weigh_hessian (ts_hessian ts)) st in
  let dx := vsub (mw_coords st) (ts_mw_coords ts) in
  let dg := vsub mw_grad (ts_mw_gradient ts) in
  let dH := fst (hessian_update_func (ts_hessian ts) dx dg) in
  let st := log_call (HessianUpdate (ts_hessian ts) dx dg) st in
  let st := set_mw_H (madd (mw_H st) dH) st in
  Ok (dwi_update (Sample (mw_coords st) energy mw_grad (mw_H st)) st).
End Setup.

(** * Specification vocabulary *)

Section CorrectorSpec.
Context {F : Type} `{Arith F}.
Local Open Scope num_scope.

Variable m_sqrt : vec F.
Variable dwi_interpolate : list (sample F) -> vec F -> F * vec F.
Variable fuel : nat.
Variable dwi : list (sample F).
Variable init_mw_coords : vec F.
Variable step_length : F.

Abbreviation table := (gmap (nat * nat) (vec F)).
Abbreviation march_level' :=
  (march_level m_sqrt dwi_interpolate fuel dwi init_mw_coords step_length).

(** Entry [(k, j)] of the table obeys the Richardson recurrence. *)
Definition entry_ok (t : table) (k j : nat) : Prop :=
  ∃ a b, t !! (k, j - 1)%nat = Some a ∧ t !! (k - 1, j - 1)%nat = Some b
         ∧ t !! (k, j) = Some (richardson_formula j a b).

(** Row [k] of the table is what level [k] of the corrector writes. *)
Definition row_ok (t : table) (k : nat) : Prop :=
  (∃ k_coords e, march_level' k = MarchDone k_coords e ∧ t !! (k, 0%nat) = Some e)
  ∧ ∀ j, (1 ≤ j ≤ k)%nat → entry_ok t k j.

(** Levels [0 .. n-1], and no others, have been written. *)
Definition table_ok (n : nat) (t : table) : Prop :=
  (∀ k, (k < n)%nat → row_ok t k) ∧ (∀ k j, (n ≤ k)%nat → t !! (k, j) = None).

(** Level [k] did not pass the convergence test. *)
Definition unconverged (t : table) (k : nat) : Prop :=
  k = 0%nat ∨ ∃ a b, t !! (k, k) = Some a ∧ t !! (k, k - 1)%nat = Some b
                     ∧ (rms_error a b <=? richardson_tol) = false.

(** What the exit of the level loop says about the table it leaves:
    [k'] levels were completed, and none of those before the exit passed
    the convergence test. *)
Definition exit_spec (k n k' : nat) (o : res (corrector_exit F)) (t : table) : Prop :=
  (∀ i, (i < k' - 1)%nat → unconverged t i) ∧
  match o with
  | Ok (Converged kk v) =>
      k' = S kk ∧ (1 ≤ kk)%nat ∧
      ∃ w, t !! (kk, kk) = Some v ∧ t !! (kk, kk - 1)%nat = Some w
           ∧ (rms_error v w <=? richardson_tol) = true
  | Ok (Oscillation kk p) =>
      k' = kk ∧ (kk < k + n)%nat ∧ unconverged t (kk - 1)
      ∧ march_level' kk = MarchOscillation p
  | OutOfFuel =>
      (k' < k + n)%nat ∧ unconverged t (k' - 1) ∧ march_level' k' = MarchOutOfFuel
  | Raise RichardsonDidNotConverge => k' = (k + n)%nat ∧ unconverged t (k' - 1)
  | Raise _ => False
  end.

(** The loop variables [(k_coords, cur_coords, cur_length)] that the
    march of step size [c] has at the top of some iteration. *)
Inductive march_at (c : F) : list (vec F) → vec F → F → Prop :=
| march_at_start : march_at c [] init_mw_coords (fofZ 0)
| march_at_next k_coords cur_coords cur_length :
    march_at c k_coords cur_coords cur_length →
    (fabs (step_length - cur_length) <? fofZ 1 / fofZ 2 * c) = false →
    (∀ prev_coords, last2 (k_coords ++ [cur_coords]) = Some prev_coords →
       (norm (vsub (micro_step dwi_interpolate dwi c cur_coords) prev_coords) <=? c)
       = false) →
    march_at c (k_coords ++ [cur_coords])
             (micro_step dwi_interpolate dwi c cur_coords)
             (get_integration_length m_sqrt init_mw_coords
                (micro_step dwi_interpolate dwi c cur_coords)).

(** In the recorded path of a march each point is one micro-step after
    the point before it. *)
Definition path_ok (c : F) (path : list (vec F)) : Prop :=
  ∀ i p q, path !! i = Some p → path !! S i = Some q →
           q = micro_step dwi_interpolate dwi c p.

End CorrectorSpec.

(** The state in which [step] reaches line 77: gradient and energy have
    been read at the current point. *)
Definition at_line_77 {F : Type} (st : state F) : state F :=
  log_call (CalcEnergy (mw_coords st)) (log_call (CalcGradient (mw_coords st)) st).

(** One Euler step of size [h] against the gradient [g], and its length
    in un-mass-weighted coordinates. *)
Definition euler_step_vec (g : vec R) (h : R) : vec R :=
  vdivs (vscale h (vopp g)) (norm g).
Definition euler_step_size (m_sqrt g : vec R) (h : R) : R :=
  norm (vdiv (euler_step_vec g h) m_sqrt).

Section WalkSpec.
Context {F : Type} `{Arith F}.
Local Open Scope num_scope.

Variable m_sqrt : vec F.
Variable dwi_interpolate : list (sample F) -> vec F -> F * vec F.
Variable dwi : list (sample F).
Variable init_mw_coords : vec F.
Variable step_length : F.

(** The point [n] micro-steps of size [c] after the start point. *)
Definition walk (c : F) (n : nat) : vec F :=
  Nat.iter n (micro_step dwi_interpolate dwi c) init_mw_coords.

(** [cur_length] at the top of iteration [n] of the march: the integer 0
    at first, the integration length of the current point afterwards. *)
Definition walk_length (c : F) (n : nat) : F :=
  match n with
  | O => fofZ 0
  | S _ => get_integration_length m_sqrt init_mw_coords (walk c n)
  end.

(** The test that ends the march, at the top of iteration [n]. *)
Definition arrived (c : F) (n : nat) : bool :=
  fabs (step_length - walk_length c n) <? fofZ 1 / fofZ 2 * c.

(** The oscillation test of iteration [n + 1]: the point [n + 2] against
    the point [n]. *)
Definition thrown_back (c : F) (n : nat) : bool :=
  norm (vsub (walk c (S (S n))) (walk c n)) <=? c.

(** Iteration [i] of the march leaves the loop when the walk has arrived
    at its top or is thrown back at its bottom. *)
Definition leaves_at (c : F) (i : nat) : bool :=
  arrived c i || match i with O => false | S i' => thrown_back c i' end.
End WalkSpec.

(** The calls that read the calculator's exact Hessian. *)
Definition is_calc_hessian {F : Type} (c : call F) : bool :=
  match c with
  | CalcHessian _ => true
  | _ => false
  end.

(** Whether the predictor's loop, left with [r], makes [step] return at
    line 171: the loop ran out of iterations and the test of line 168
    holds. *)
Definition returns_early {F : Type} `{Arith F} (unweight_vec : vec F -> vec F)
    (cfg : config F) (r : euler_result F) : bool :=
  match e_exit r with
  | ReachedTarget => false
  | ExhaustedBudget =>
      (rms (unweight_vec (euler_mw_grad r)) <=? fofZ 5 * rms_grad_thresh cfg)%num
  end.

(** * Concrete inputs *)

(** ** IEEE binary64 *)

(** A one-dimensional walk of unit mass down a slope of constant
    gradient [-1]. *)
Definition downhill_dwi (_ : list (sample float)) (x : vec float) : float * vec float :=
  (0%float, map (fun _ => (-1)%float) x).

(** A gradient that changes sign at [x = 1/32]: the walk steps over the
    minimum and is thrown back. *)
Definition zigzag_dwi (_ : list (sample float)) (x : vec float) : float * vec float :=
  (0%float, map (fun xi => if PrimFloat.ltb xi 0.03125%float then (-1)%float else 1%float) x).

Definition downhill_run : res (corrector_exit float) * gmap (nat * nat) (vec float) :=
  corrector_run [1%float] downhill_dwi 100 [0%float] 1.1875%float [].

(** The one-dimensional bowl [E(x) = x * x] with unit mass. *)
Definition bowl_gradient (x : vec float) : vec float := vscale 2%float x.
Definition bowl_energy (x : vec float) : float := dot x x.
Definition bowl_hessian (_ : vec float) : matrix float := [[2%float]].

(** The zero correction that both update rules fall back to. *)
Definition no_update (_ : matrix float) (_ _ : vec float) : matrix float * String.string :=
  ([[0%float]], String.EmptyString).

(** A DWI that answers with the Taylor model of its newest sample. *)
Definition newest_dwi (dwi : list (sample float)) (x : vec float) : float * vec float :=
  match last1 dwi with
  | Some s => (s_energy s, vadd (s_gradient s) (mat_vec (s_hessian s) (vsub x (s_coords s))))
  | None => (0%float, x)
  end.

Definition unit_mass (v : vec float) : vec float := v.

Definition bowl_cfg : config float := Config 0.125%float 500 0.0001220703125%float None.
Definition bowl_state : state float :=
  State 0 [1%float] [[2%float]] [Sample [1%float] 1%float [2%float] [[2%float]]]
        [[1%float]] [[2%float]] false [].

Definition bowl_step (fuel : nat) (st : state float) : res (state float) :=
  step [1%float] newest_dwi bowl_gradient bowl_energy bowl_hessian no_update
       unit_mass bowl_cfg fuel st.

(** A stiff model: gradient 1 and Hessian 1000 at the start point, four
    Euler steps of length 1/2 allowed. *)
Definition stiff_cfg : config float := Config 1%float 4 0.0001220703125%float None.
Definition stiff_state : state float :=
  State 0 [0%float] [[1000%float]] [] [[0%float]] [[1%float]] false [].

(** A nearly flat model: one Euler step allowed, gradient [2^-20]. *)
Definition flat_gradient (_ : vec float) : vec float := [0x1p-20%float].
Definition flat_cfg : config float := Config 1%float 1 0.0001220703125%float None.
Definition flat_state : state float :=
  State 0 [0%float] [[0%float]] [] [[0%float]] [[0x1p-20%float]] false [].

Definition flat_step (fuel : nat) (st : state float) : res (state float) :=
  step [1%float] newest_dwi flat_gradient bowl_energy bowl_hessian no_update
       unit_mass flat_cfg fuel st.

(** A run with [hessian_recalc = 3]. *)
Definition recalc_cfg : config float := Config 0.125%float 500 0.0001220703125%float (Some 3%Z).
Definition recalc_state (cycle : Z) : state float :=
  State cycle [1%float] [[3%float]] [] [[1.25%float]; [1%float]] [[2.5%float]; [2%float]]
        false [].

(** ** Exact arithmetic *)

(** The constant slope of gradient [-1] in exact arithmetic. *)
Definition downhill_real (_ : list (sample R)) (x : vec R) : R * vec R :=
  (0%R, map (fun _ => (-1)%R) x).

(** A constant slope in exact arithmetic: gradient 1, zero Hessian, unit
    mass, target length 1, four Euler steps of length 1/2 allowed. *)
Definition slope_cfg : config R := Config 1%R 4 (/ 8192)%R None.
Definition slope_state : state R :=
  State 0 [0%R] [[0%R]] [] [[0%R]] [[1%R]] false [].

(** ** More runs of the macro-step *)

(** The state a call leaves in [self], [st] when it raised. *)
Definition state_after {F : Type} (r : res (state F)) (st : state F) : state F :=
  match r with
  | Ok st' => st'
  | _ => st
  end.

Definition bowl_end : state float := state_after (bowl_step 100 bowl_state) bowl_state.

Definition recalc_step (fuel : nat) (st : state float) : res (state float) :=
  step [1%float] newest_dwi bowl_gradient bowl_energy bowl_hessian no_update
       unit_mass recalc_cfg fuel st.
Definition recalc_end : state float :=
  state_after (recalc_step 100 (recalc_state 6)) (recalc_state 6).

(** Cycle 1 with one point in each history, and cycle 0 with none. *)
Definition short_history_state : state float :=
  State 1 [1%float] [[2%float]] [] [[1%float]] [[2%float]] false [].
Definition empty_history_state : state float :=
  State 0 [1%float] [[2%float]] [Sample [1%float] 1%float [2%float] [[2%float]]]
        [] [] false [].

(** The bowl's transition state sits at the origin; the base class's
    [prepare] has displaced the geometry to [x = 1]. *)
Definition bowl_ts : ts_data float := TsData [[2%float]] [0%float] [0%float].
Definition bowl_prepare (st : state float) : res (state float) :=
  prepare bowl_gradient bowl_energy no_update Ok (fun h => h) bowl_ts st.
Definition bowl_prepared : state float :=
  state_after (bowl_prepare bowl_state) bowl_state.
Definition bowl_first_end : state float :=
  state_after (bowl_step 100 bowl_prepared) bowl_prepared.

(** * The literals and [max] *)

(** The quotient [1 / 100000] is the binary64 number that Python reads
    the literal [1e-5] as, and [1 / 2] is [.5]. *)
Example richardson_tol_float :
  @richardson_tol float _ = 0x1.4f8b588e368f1p-17%float
  ∧ (fofZ 1 / fofZ 2)%num = 0.5%float.
Proof. split; vm_compute; reflexivity. Qed.

(** On the real numbers Python's [max] is the maximum. *)
Lemma pymax_real (a b : R) : pymax a b = Rmax a b.
Proof.
  unfold pymax, Rmax. cbn [fltb real_arith]. unfold Rltb.
  destruct (Rlt_dec a b), (Rle_dec a b); try done; lra.
Qed.

(** * Fuel

    The [while True] march is modelled with a bound on its iterations;
    a result other than "out of fuel" does not depend on the bound. *)

Section Fuel.
Context {F : Type} `{Arith F}.
Local Open Scope num_scope.

Variable m_sqrt : vec F.
Variable dwi_interpolate : list (sample F) -> vec F -> F * vec F.
Variable dwi : list (sample F).
Variable init_mw_coords : vec F.
Variable step_length : F.

Abbreviation march_at' :=
  (march_at m_sqrt dwi_interpolate dwi init_mw_coords step_length).
Abbreviation path_ok' := (path_ok dwi_interpolate dwi).

Lemma march_fuel_mono c n : ∀ m k_coords cur_coords cur_length,
  (n ≤ m)%nat →
  march m_sqrt dwi_interpolate n dwi init_mw_coords step_length c
        k_coords cur_coords cur_length ≠ MarchOutOfFuel →
  march m_sqrt dwi_interpolate m dwi init_mw_coords step_length c
        k_coords cur_coords cur_length
  = march m_sqrt dwi_interpolate n dwi init_mw_coords step_length c
          k_coords cur_coords cur_length.
Proof.
  induction n as [|n IH]; intros m kc cur len Hle Hne; [done|].
  destruct m as [|m]; [lia|]. cbn [march] in *.
  destruct (fabs (step_length - len) <? fofZ 1 / fofZ 2 * c); [done|].
  destruct (last2 (kc ++ [cur])) as [prev|].
  - destruct (norm _ <=? c); [done|]. apply IH; [lia|done].
  - apply IH; [lia|done].
Qed.

Lemma march_level_fuel_mono n m k :
  (n ≤ m)%nat →
  march_level m_sqrt dwi_interpolate n dwi init_mw_coords step_length k ≠ MarchOutOfFuel →
  march_level m_sqrt dwi_interpolate m dwi init_mw_coords step_length k
  = march_level m_sqrt dwi_interpolate n dwi init_mw_coords step_length k.
Proof. intros Hle Hne. by apply march_fuel_mono. Qed.

Lemma corrector_levels_fuel_mono n m ks : ∀ (t : gmap (nat * nat) (vec F)),
  (n ≤ m)%nat →
  fst (corrector_levels m_sqrt dwi_interpolate n dwi init_mw_coords step_length ks t)
    ≠ OutOfFuel →
  corrector_levels m_sqrt dwi_interpolate m dwi init_mw_coords step_length ks t
  = corrector_levels m_sqrt dwi_interpolate n dwi init_mw_coords step_length ks t.
Proof.
  induction ks as [|k ks IH]; intros t Hle Hne; [done|].
  cbn [corrector_levels] in *.
  destruct (march_level m_sqrt dwi_interpolate n dwi init_mw_coords step_length k)
    as [kc e|p|] eqn:Hm; [| |done].
  - rewrite march_level_fuel_mono with (n := n) by (done || congruence).
    rewrite Hm.
    destruct (extrapolate k (seq 1 k) (<[(k, 0%nat):=e]> t)) as [t1|e'|]; [|done|done].
    destruct (0 <? k)%nat.
    + destruct (t1 !! (k, k)) as [a|]; [|done].
      destruct (t1 !! (k, (k - 1)%nat)) as [b|]; [|done].
      destruct (rms_error a b <=? richardson_tol); [done|]. by apply IH.
    + by apply IH.
  - rewrite march_level_fuel_mono with (n := n) by (done || congruence).
    by rewrite Hm.
Qed.

(** More fuel does not change what [corrector_step] returns or raises. *)
Lemma corrector_step_fuel_mono n m :
  (n ≤ m)%nat →
  corrector_step m_sqrt dwi_interpolate n init_mw_coords step_length dwi ≠ OutOfFuel →
  corrector_step m_sqrt dwi_interpolate m init_mw_coords step_length dwi
  = corrector_step m_sqrt dwi_interpolate n init_mw_coords step_length dwi.
Proof.
  intros Hle Hne. unfold corrector_step, corrector_run in *.
  rewrite corrector_levels_fuel_mono with (n := n); [done|done|].
  intros Hf. apply Hne. by rewrite Hf.
Qed.

Lemma march_at_resume c k_coords cur_coords cur_length :
  march_at' c k_coords cur_coords cur_length →
  ∀ n, march m_sqrt dwi_interpolate (length k_coords + n) dwi init_mw_coords
             step_length c [] init_mw_coords (fofZ 0)
       = march m_sqrt dwi_interpolate n dwi init_mw_coords step_length c
               k_coords cur_coords cur_length.
Proof.
  induction 1 as [|kc cur len Hat IH Htest Hosc]; intros n; [done|].
  rewrite length_app. cbn [length].
  replace (length kc + 1 + n)%nat with (length kc + S n)%nat by lia.
  rewrite IH. cbn [march]. rewrite Htest.
  destruct (last2 (kc ++ [cur])) as [prev|] eqn:Hl; [|done].
  by rewrite (Hosc prev).
Qed.

Lemma march_path c n : ∀ k_coords cur_coords cur_length k_coords' e,
  path_ok' c (k_coords ++ [cur_coords]) →
  march m_sqrt dwi_interpolate n dwi init_mw_coords step_length c
        k_coords cur_coords cur_length = MarchDone k_coords' e →
  path_ok' c k_coords' ∧ last k_coords' = Some e
  ∧ ∃ rest, k_coords' = k_coords ++ cur_coords :: rest.
Proof.
  induction n as [|n IH]; intros kc cur len kc' e Hpath Hm; [done|].
  cbn [march] in Hm.
  destruct (fabs (step_length - len) <? fofZ 1 / fofZ 2 * c).
  { injection Hm as <- <-. split; [done|]. split; [by rewrite last_snoc|].
    by exists []. }
  assert (Hpath' : path_ok' c ((kc ++ [cur]) ++ [micro_step dwi_interpolate dwi c cur])).
  { intros i p q Hp Hq. destruct (decide (S i < length (kc ++ [cur]))%nat) as [Hlt|Hge].
    - rewrite lookup_app_l in Hp by lia. rewrite lookup_app_l in Hq by lia.
      by apply (Hpath i).
    - apply lookup_lt_Some in Hq as Hq'. rewrite length_app in Hq'. cbn in Hq'.
      assert (S i = length (kc ++ [cur])) as Hi by lia.
      rewrite Hi in Hq. rewrite lookup_app_r in Hq by lia.
      rewrite Nat.sub_diag in Hq. injection Hq as <-.
      rewrite lookup_app_l in Hp by lia.
      rewrite length_app in Hi. cbn in Hi.
      assert (i = length kc) as -> by lia.
      rewrite lookup_app_r in Hp by lia. rewrite Nat.sub_diag in Hp.
      by injection Hp as <-. }
  assert (Hrec : march m_sqrt dwi_interpolate n dwi init_mw_coords step_length c
                   (kc ++ [cur]) (micro_step dwi_interpolate dwi c cur)
                   (get_integration_length m_sqrt init_mw_coords
                      (micro_step dwi_interpolate dwi c cur)) = MarchDone kc' e).
  { destruct (last2 (kc ++ [cur])) as [prev|]; [|done].
    by destruct (norm _ <=? c). }
  destruct (IH _ _ _ _ _ Hpath' Hrec) as (Hok & Hlast & rest & ->).
  split; [done|]. split; [done|].
  exists (micro_step dwi_interpolate dwi c cur :: rest). by rewrite <- app_assoc.
Qed.

Lemma march_level_path n k k_coords e :
  march_level m_sqrt dwi_interpolate n dwi init_mw_coords step_length k
    = MarchDone k_coords e →
  path_ok' (corr_step_length step_length k) k_coords ∧ last k_coords = Some e
  ∧ k_coords !! 0%nat = Some init_mw_coords.
Proof.
  intros Hm. apply march_path in Hm as (Hok & Hlast & rest & ->); [done|].
  intros i p q Hp Hq. by destruct i.
Qed.
End Fuel.

(** * Properties of the corrector *)

Section CorrectorFacts.
Context {F : Type} `{Arith F}.
Local Open Scope num_scope.

Variable m_sqrt : vec F.
Variable dwi_interpolate : list (sample F) -> vec F -> F * vec F.
Variable fuel : nat.
Variable dwi : list (sample F).
Variable init_mw_coords : vec F.
Variable step_length : F.

Abbreviation table := (gmap (nat * nat) (vec F)).
Abbreviation march_level' := (march_level m_sqrt dwi_interpolate fuel dwi init_mw_coords step_length).
Abbreviation corrector_levels' :=
  (corrector_levels m_sqrt dwi_interpolate fuel dwi init_mw_coords step_length).
Abbreviation row_ok' :=
  (row_ok m_sqrt dwi_interpolate fuel dwi init_mw_coords step_length).
Abbreviation table_ok' :=
  (table_ok m_sqrt dwi_interpolate fuel dwi init_mw_coords step_length).
Abbreviation exit_spec' :=
  (exit_spec m_sqrt dwi_interpolate fuel dwi init_mw_coords step_length).

Lemma row_ok_complete t k j : row_ok' t k → (j ≤ k)%nat → is_Some (t !! (k, j)).
Proof.
  intros [(kc & e & _ & H0) Hj] Hle. destruct j as [|j].
  - by exists e.
  - destruct (Hj (S j)) as (a & b & _ & _ & Hkj); [lia|]. by eexists.
Qed.

Lemma entry_ok_agree t t' k j :
  (∀ i, t' !! (k, i) = t !! (k, i)) →
  (∀ i, t' !! ((k - 1)%nat, i) = t !! ((k - 1)%nat, i)) →
  entry_ok t k j → entry_ok t' k j.
Proof.
  intros Hk Hk1 (a & b & Ha & Hb & Hf). exists a, b.
  by rewrite !Hk, Hk1.
Qed.

Lemma row_ok_agree t t' k :
  (∀ i j, (i ≤ k)%nat → t' !! (i, j) = t !! (i, j)) → row_ok' t k → row_ok' t' k.
Proof.
  intros Hag [(kc & e & Hm & H0) Hj]. split.
  - exists kc, e. split; [done|]. by rewrite Hag.
  - intros j Hjk. eapply entry_ok_agree; [| |by apply Hj].
    + intros i. by apply Hag.
    + intros i. apply Hag. lia.
Qed.

Lemma unconverged_agree t t' k :
  (∀ j, t' !! (k, j) = t !! (k, j)) → unconverged t k → unconverged t' k.
Proof.
  intros Hag [->|(a & b & Ha & Hb & Hf)]; [by left|].
  right. exists a, b. by rewrite !Hag.
Qed.

(** The inner [for j] loop never meets a missing key and writes the
    entries [(k, s) .. (k, s+len-1)], each from its two neighbours. *)
Lemma extrapolate_spec k len : ∀ s (t : table),
  (1 ≤ s)%nat → (s + len ≤ k + 1)%nat →
  (∀ j, (j < s)%nat → is_Some (t !! (k, j))) →
  (∀ j, (j < k)%nat → is_Some (t !! ((k - 1)%nat, j))) →
  ∃ t', extrapolate k (seq s len) t = Ok t'
    ∧ (∀ i j, (i ≠ k ∨ j < s ∨ s + len ≤ j)%nat → t' !! (i, j) = t !! (i, j))
    ∧ (∀ j, (s ≤ j < s + len)%nat → entry_ok t' k j).
Proof.
  induction len as [|len IH]; intros s t Hs Hlen Hrow Hprev.
  - exists t. split; [done|]. split; [done|]. intros j Hj. lia.
  - destruct (Hrow (s - 1)%nat) as [a Ha]; [lia|].
    destruct (Hprev (s - 1)%nat) as [b Hb]; [lia|].
    set (t1 := <[(k, s) := richardson_formula s a b]> t).
    destruct (IH (S s) t1) as (t' & Hex & Hag & Hent); [lia|lia| | |].
    + intros j Hj. subst t1. destruct (decide (j = s)) as [->|Hne].
      * rewrite lookup_insert_eq. by eexists.
      * rewrite lookup_insert_ne by congruence. apply Hrow. lia.
    + intros j Hj. subst t1.
      rewrite lookup_insert_ne by (intros [=]; lia). by apply Hprev.
    + exists t'. split; [|split].
      * cbn [seq extrapolate]. rewrite Ha, Hb. exact Hex.
      * intros i j Hij. rewrite Hag by lia. subst t1.
        apply lookup_insert_ne. intros [=]; lia.
      * intros j Hj. destruct (decide (j = s)) as [->|Hne]; [|apply Hent; lia].
        exists a, b. rewrite !Hag by lia. subst t1.
        rewrite lookup_insert_eq.
        rewrite !lookup_insert_ne by (intros [=]; lia). done.
Qed.

Lemma corrector_levels_spec n : ∀ k (t : table) o t',
  table_ok' k t → (∀ i, (i < k)%nat → unconverged t i) →
  corrector_levels' (seq k n) t = (o, t') →
  ∃ k', (k ≤ k' ≤ k + n)%nat ∧ table_ok' k' t' ∧ exit_spec' k n k' o t'.
Proof.
  induction n as [|n IH]; intros k t o t' Hok Hun Hrun.
  - cbn in Hrun. injection Hrun as <- <-. exists k. split; [lia|]. split; [done|].
    split; [intros i Hi; apply Hun; lia|]. split; [lia|].
    destruct k; [by left|]. apply Hun. lia.
  - cbn [seq corrector_levels] in Hrun.
    destruct (march_level' k) as [kc e| p |] eqn:Hm.
    2:{ injection Hrun as <- <-. exists k. split; [lia|]. split; [done|].
        split; [intros i Hi; apply Hun; lia|]. split; [done|]. split; [lia|].
        split; [|done]. destruct k; [by left|]. apply Hun. lia. }
    2:{ injection Hrun as <- <-. exists k. split; [lia|]. split; [done|].
        split; [intros i Hi; apply Hun; lia|]. split; [lia|].
        split; [|done]. destruct k; [by left|]. apply Hun. lia. }
    destruct Hok as [Hrows Hfresh].
    set (t0 := <[(k, 0%nat) := e]> t) in *.
    destruct (extrapolate_spec k k 1 t0) as (t1 & Hex & Hag & Hent); [lia|lia| | |].
    { intros j Hj. assert (j = 0%nat) as -> by lia. subst t0.
      rewrite lookup_insert_eq. by eexists. }
    { intros j Hj. subst t0. rewrite lookup_insert_ne by (intros [=]; lia).
      apply row_ok_complete; [apply Hrows|]; lia. }
    rewrite Hex in Hrun.
    assert (Hold : ∀ i j, (i < k)%nat → t1 !! (i, j) = t !! (i, j)).
    { intros i j Hi. rewrite Hag by lia. subst t0.
      apply lookup_insert_ne. intros [=]; lia. }
    assert (Hok1 : table_ok' (S k) t1).
    { split.
      - intros i Hi. destruct (decide (i = k)) as [->|Hne].
        + split; [|intros j Hj; apply Hent; lia].
          exists kc, e. split; [done|]. rewrite Hag by lia. subst t0.
          apply lookup_insert_eq.
        + apply row_ok_agree with t; [|apply Hrows; lia].
          intros i' j Hi'. apply Hold. lia.
      - intros i j Hi. rewrite Hag by lia. subst t0.
        rewrite lookup_insert_ne by (intros [=]; lia). apply Hfresh. lia. }
    assert (Hun1 : ∀ i, (i < k)%nat → unconverged t1 i).
    { intros i Hi. apply unconverged_agree with t; [|by apply Hun].
      intros j. by apply Hold. }
    destruct (0 <? k)%nat eqn:Hk.
    + apply Nat.ltb_lt in Hk.
      destruct (row_ok_complete t1 k k) as [rkk Hkk]; [apply Hok1; lia|lia|].
      destruct (row_ok_complete t1 k (k - 1)) as [rkk1 Hkk1]; [apply Hok1; lia|lia|].
      rewrite Hkk, Hkk1 in Hrun.
      destruct (rms_error rkk rkk1 <=? richardson_tol) eqn:Htest.
      * injection Hrun as <- <-. exists (S k). split; [lia|]. split; [done|].
        split; [intros i Hi; apply Hun1; lia|]. split; [done|]. split; [done|].
        by exists rkk1.
      * destruct (IH (S k) t1 o t') as (k' & Hk' & Hok' & Hexit); [done| |done|].
        { intros i Hi. destruct (decide (i = k)) as [->|Hne]; [|apply Hun1; lia].
          right. by exists rkk, rkk1. }
        exists k'. split; [lia|]. split; [done|].
        destruct Hexit as [Hu Hexit]. split; [done|].
        destruct o as [[kk v|kk p]|[]|]; try done;
          repeat match goal with
                 | H : _ ∧ _ |- _ => destruct H
                 | |- _ ∧ _ => split
                 end; try done; try lia.
    + apply Nat.ltb_ge in Hk. assert (k = 0%nat) as -> by lia.
      destruct (IH 1%nat t1 o t') as (k' & Hk' & Hok' & Hexit); [done| |done|].
      { intros i Hi. left. lia. }
      exists k'. split; [lia|]. split; [done|].
      destruct Hexit as [Hu Hexit]. split; [done|].
      destruct o as [[kk v|kk p]|[]|]; try done;
        repeat match goal with
               | H : _ ∧ _ |- _ => destruct H
               | |- _ ∧ _ => split
               end; try done; try lia.
Qed.

Lemma table_ok_empty : table_ok' 0 ∅.
Proof. split; [intros k Hk; lia|]. intros k j _. apply lookup_empty. Qed.

(** The run of [corrector_step] from the empty table. *)
Lemma corrector_run_spec o t' :
  corrector_run m_sqrt dwi_interpolate fuel init_mw_coords step_length dwi = (o, t') →
  ∃ k', (k' ≤ 15)%nat ∧ table_ok' k' t' ∧ exit_spec' 0 15 k' o t'.
Proof.
  intros Hrun. destruct (corrector_levels_spec 15 0 ∅ o t') as (k' & Hk & Hok & Hex).
  - apply table_ok_empty.
  - intros i Hi. lia.
  - exact Hrun.
  - exists k'. split; [lia|]. done.
Qed.


(** C2.  [corrector_step] returns through the convergence test only at
    a level [k ≥ 1], and then returns [R[k,k]], whose RMS difference to
    [R[k,k-1]] is at most [1e-5]; conversely, as soon as a level [k ≥ 1]
    has written [R[k,k]] and [R[k,k-1]] with an RMS difference of at most
    [1e-5], the corrector stops there and returns [R[k,k]]. *)
Theorem C2_convergence_test (o : res (corrector_exit F)) (t : table) :
  corrector_run m_sqrt dwi_interpolate fuel init_mw_coords step_length dwi = (o, t) →
  (∀ k v, o = Ok (Converged k v) →
     (1 ≤ k)%nat ∧ t !! (k, k) = Some v ∧
     corrector_step m_sqrt dwi_interpolate fuel init_mw_coords step_length dwi = Ok v ∧
     ∃ w, t !! (k, k - 1)%nat = Some w ∧
       (fsqrt (mean (vsquare (vsub v w))) <=? fofZ 1 / fofZ 100000) = true) ∧
  (∀ k a b, (1 ≤ k)%nat → t !! (k, k) = Some a → t !! (k, k - 1)%nat = Some b →
     (fsqrt (mean (vsquare (vsub a b))) <=? fofZ 1 / fofZ 100000) = true →
     o = Ok (Converged k a) ∧
     corrector_step m_sqrt dwi_interpolate fuel init_mw_coords step_length dwi = Ok a).
Proof.
  intros Hrun.
  destruct (corrector_run_spec o t Hrun) as (k' & Hk' & [Hrows Hfresh] & Hun & Hex).
  split.
  - intros k v ->. destruct Hex as (-> & Hk & w & Hv & Hw & Htest).
    split; [done|]. split; [done|].
    split; [unfold corrector_step; by rewrite Hrun|]. eauto.
  - intros k a b Hk Ha Hb Htest.
    assert (Hlt : (k < k')%nat).
    { destruct (decide (k < k')%nat) as [|Hge]; [done|].
      rewrite Hfresh in Ha by lia. done. }
    assert (Hmet : ¬ unconverged t k).
    { intros [->|(a' & b' & Ha' & Hb' & Hf)]; [lia|].
      rewrite Ha in Ha'. rewrite Hb in Hb'.
      injection Ha' as <-. injection Hb' as <-.
      unfold rms_error, richardson_tol in Hf. congruence. }
    assert (Hlast : k = (k' - 1)%nat).
    { destruct (decide (k = k' - 1)%nat) as [|Hne]; [done|].
      exfalso. apply Hmet, Hun. lia. }
    unfold corrector_step. rewrite Hrun. cbn [fst].
    destruct o as [[kk v|kk p]|[]|]; try done.
    + destruct Hex as (-> & _ & w & Hv & _).
      assert (kk = k) as -> by lia. rewrite Ha in Hv. injection Hv as <-. done.
    + destruct Hex as (-> & _ & Hu & _). subst k. done.
    + destruct Hex as (_ & Hu). subst k. done.
    + destruct Hex as (_ & Hu & _). subst k. done.
Qed.

(** C3.  [corrector_step] raises exactly when all fifteen levels were
    marched to their end and none of the levels [1 .. 14] passed the
    convergence test; the error is then "Richardson did not converge",
    and no other error is ever raised: a run that comes to an end
    otherwise returns a point. *)
Theorem C3_exhaustion_raises (o : res (corrector_exit F)) (t : table) :
  corrector_run m_sqrt dwi_interpolate fuel init_mw_coords step_length dwi = (o, t) →
  let r := corrector_step m_sqrt dwi_interpolate fuel init_mw_coords step_length dwi in
  let exhausted :=
    ∀ k, (k < 15)%nat →
      (∃ k_coords e, march_level' k = MarchDone k_coords e) ∧
      ((1 ≤ k)%nat → ∃ a b, t !! (k, k) = Some a ∧ t !! (k, k - 1)%nat = Some b ∧
         (fsqrt (mean (vsquare (vsub a b))) <=? fofZ 1 / fofZ 100000) = false) in
  (r = Raise RichardsonDidNotConverge ↔ exhausted) ∧
  (∀ e, r = Raise e → e = RichardsonDidNotConverge) ∧
  (r ≠ OutOfFuel → ¬ exhausted → ∃ p, r = Ok p).
Proof.
  intros Hrun r exhausted.
  destruct (corrector_run_spec o t Hrun) as (k' & Hk' & [Hrows Hfresh] & Hun & Hex).
  assert (Hr : r = exit_point <$> o).
  { subst r. unfold corrector_step. by rewrite Hrun. }
  assert (Hiff : r = Raise RichardsonDidNotConverge ↔ exhausted).
  { split.
    - intros Hraise. rewrite Hr in Hraise.
      destruct o as [e|e|]; try done. injection Hraise as ->.
      destruct Hex as (-> & Hu). intros k Hk.
      destruct (Hrows k Hk) as [(kc & e & Hm & _) _]. split; [by eauto|].
      intros Hk1.
      assert (Huk : unconverged t k).
      { destruct (decide (k = 14)%nat) as [->|]; [exact Hu|apply Hun; lia]. }
      destruct Huk as [->|Huk]; [lia|exact Huk].
    - intros Hall. rewrite Hr.
      destruct o as [[kk v|kk p]|[]|]; try done; exfalso.
      + destruct Hex as (-> & Hk & w & Hv & Hw & Htest).
        destruct (Hall kk) as [_ Hnot]; [lia|].
        destruct (Hnot Hk) as (a & b & Ha & Hb & Hf).
        rewrite Hv in Ha. rewrite Hw in Hb. injection Ha as <-. injection Hb as <-.
        unfold rms_error, richardson_tol in Htest. congruence.
      + destruct Hex as (-> & Hk & _ & Hm).
        destruct (Hall kk) as [(kc & e & Hd) _]; [lia|]. congruence.
      + destruct Hex as (Hk & _ & Hm).
        destruct (Hall k') as [(kc & e & Hd) _]; [lia|]. congruence. }
  split; [exact Hiff|]. split.
  - intros e He. rewrite Hr in He. destruct o as [x|e'|]; try done.
    injection He as ->. by destruct e.
  - intros Hfuel Hnot. rewrite Hr in *. destruct o as [x|e|]; [by eexists| |done].
    exfalso. apply Hnot, Hiff. by destruct e.
Qed.

End CorrectorFacts.

Section Oscillation.
Context {F : Type} `{Arith F}.
Local Open Scope num_scope.

Variable m_sqrt : vec F.
Variable dwi_interpolate : list (sample F) -> vec F -> F * vec F.
Variable dwi : list (sample F).
Variable init_mw_coords : vec F.
Variable step_length : F.

(** C4, amended.  The oscillation test compares the point just computed
    with the second-to-last recorded point, the one two micro-steps back.
    When level [k] has come to an iteration with variables
    [(k_coords, cur_coords, cur_length)] that does not stop on the arc
    length, and the point after the micro-step lies within the step size
    of [prev_coords = k_coords[-2]], the level ends there: with any fuel
    beyond the iterations already done the march is an oscillation exit
    with [prev_coords], and [corrector_step], at level [k], returns
    [prev_coords] whatever levels were still to come, without raising. *)
Theorem C4_oscillation_abort k k_coords cur_coords cur_length prev_coords fuel :
  let c := corr_step_length step_length k in
  march_at m_sqrt dwi_interpolate dwi init_mw_coords step_length c
           k_coords cur_coords cur_length →
  (fabs (step_length - cur_length) <? fofZ 1 / fofZ 2 * c) = false →
  last2 (k_coords ++ [cur_coords]) = Some prev_coords →
  (norm (vsub (micro_step dwi_interpolate dwi c cur_coords) prev_coords) <=? c) = true →
  (length k_coords < fuel)%nat →
  march_level m_sqrt dwi_interpolate fuel dwi init_mw_coords step_length k
    = MarchOscillation prev_coords
  ∧ ∀ ks (t : gmap (nat * nat) (vec F)),
      corrector_levels m_sqrt dwi_interpolate fuel dwi init_mw_coords step_length
                       (k :: ks) t
      = (Ok (Oscillation k prev_coords), t)
      ∧ exit_point <$> fst (corrector_levels m_sqrt dwi_interpolate fuel dwi
                              init_mw_coords step_length (k :: ks) t)
        = Ok prev_coords.
Proof.
  intros c Hat Htest Hlast Hosc Hfuel.
  assert (Hm : march_level m_sqrt dwi_interpolate fuel dwi init_mw_coords step_length k
               = MarchOscillation prev_coords).
  { unfold march_level. fold c.
    replace fuel with (length k_coords + S (fuel - length k_coords - 1))%nat by lia.
    rewrite (march_at_resume _ _ _ _ _ _ _ _ _ Hat).
    cbn [march]. by rewrite Htest, Hlast, Hosc. }
  split; [exact Hm|]. intros ks t. cbn [corrector_levels]. by rewrite Hm.
Qed.
End Oscillation.

(** * Runs on IEEE binary64 numbers *)

Example downhill_level0 :
  march_level [1%float] downhill_dwi 100 [] [0%float] 1.1875%float 0
  = MarchDone
      [[0%float]; [0.0625%float]; [0.125%float]; [0.1875%float];
       [0.25%float]; [0.3125%float]; [0.375%float]; [0.4375%float];
       [0.5%float]; [0.5625%float]; [0.625%float]; [0.6875%float];
       [0.75%float]; [0.8125%float]; [0.875%float]; [0.9375%float];
       [1%float]; [1.0625%float]; [1.125%float]; [1.1875%float]]
      [1.1875%float].
Proof. vm_compute. reflexivity. Qed.

Example downhill_converges :
  ∃ v, fst downhill_run = Ok (Converged 1 v).
Proof. eexists. vm_compute. reflexivity. Qed.

Example zigzag_aborts :
  corrector_step [1%float] zigzag_dwi 100 [0%float] 1.1875%float [] = Ok [0%float].
Proof. vm_compute. reflexivity. Qed.


Lemma C2_witness :
  (∀ k v, fst downhill_run = Ok (Converged k v) →
     (1 ≤ k)%nat ∧ snd downhill_run !! (k, k) = Some v ∧
     corrector_step [1%float] downhill_dwi 100 [0%float] 1.1875%float [] = Ok v ∧
     ∃ w, snd downhill_run !! (k, k - 1)%nat = Some w ∧
       (fsqrt (mean (vsquare (vsub v w))) <=? fofZ 1 / fofZ 100000)%num = true) ∧
  (∀ k a b, (1 ≤ k)%nat → snd downhill_run !! (k, k) = Some a →
     snd downhill_run !! (k, k - 1)%nat = Some b →
     (fsqrt (mean (vsquare (vsub a b))) <=? fofZ 1 / fofZ 100000)%num = true →
     fst downhill_run = Ok (Converged k a) ∧
     corrector_step [1%float] downhill_dwi 100 [0%float] 1.1875%float [] = Ok a).
Proof.
  apply (C2_convergence_test [1%float] downhill_dwi 100 [] [0%float] 1.1875%float
           (fst downhill_run) (snd downhill_run)).
  vm_compute. reflexivity.
Defined.

Lemma C3_witness :
  let r := corrector_step [1%float] downhill_dwi 100 [0%float] 1.1875%float [] in
  let exhausted :=
    ∀ k, (k < 15)%nat →
      (∃ k_coords e,
         march_level [1%float] downhill_dwi 100 [] [0%float] 1.1875%float k
         = MarchDone k_coords e) ∧
      ((1 ≤ k)%nat → ∃ a b, snd downhill_run !! (k, k) = Some a
         ∧ snd downhill_run !! (k, k - 1)%nat = Some b ∧
         (fsqrt (mean (vsquare (vsub a b))) <=? fofZ 1 / fofZ 100000)%num = false) in
  (r = Raise RichardsonDidNotConverge ↔ exhausted) ∧
  (∀ e, r = Raise e → e = RichardsonDidNotConverge) ∧
  (r ≠ OutOfFuel → ¬ exhausted → ∃ p, r = Ok p).
Proof.
  apply (C3_exhaustion_raises [1%float] downhill_dwi 100 [] [0%float] 1.1875%float
           (fst downhill_run) (snd downhill_run)).
  vm_compute. reflexivity.
Defined.

(** On the zigzag field the second micro-step of level 0 lands on the
    start point again. *)
Lemma C4_witness :
  march_level [1%float] zigzag_dwi 100 [] [0%float] 1.1875%float 0
    = MarchOscillation [0%float]
  ∧ ∀ ks (t : gmap (nat * nat) (vec float)),
      corrector_levels [1%float] zigzag_dwi 100 [] [0%float] 1.1875%float (0%nat :: ks) t
      = (Ok (Oscillation 0 [0%float]), t)
      ∧ exit_point <$> fst (corrector_levels [1%float] zigzag_dwi 100 []
                              [0%float] 1.1875%float (0%nat :: ks) t)
        = Ok [0%float].
Proof.
  apply (C4_oscillation_abort [1%float] zigzag_dwi [] [0%float] 1.1875%float 0
           ([] ++ [[0%float]])
           (micro_step zigzag_dwi [] (corr_step_length 1.1875%float 0) [0%float])
           (get_integration_length [1%float] [0%float]
              (micro_step zigzag_dwi [] (corr_step_length 1.1875%float 0) [0%float]))
           [0%float] 100).
  - apply march_at_next with (cur_length := fofZ 0).
    + apply march_at_start.
    + vm_compute. reflexivity.
    + intros prev Hprev. vm_compute in Hprev. discriminate Hprev.
  - vm_compute. reflexivity.
  - vm_compute. reflexivity.
  - vm_compute. reflexivity.
  - vm_compute. lia.
Defined.

(** C4 as stated fails: on the constant slope the first two points of
    level 0 are exactly one step size apart, so "the separation of
    consecutive points is at most the step size" holds, and yet the level
    is marched to its end and the corrector leaves through the convergence
    test of level 1. *)
Lemma C4_counterexample :
  let p := [0%float] in
  let q := [0.0625%float] in
  (∃ rest e,
     march_level [1%float] downhill_dwi 100 [] [0%float] 1.1875%float 0
     = MarchDone (p :: q :: rest) e)
  ∧ (norm (vsub q p) <=? corr_step_length 1.1875%float 0)%num = true
  ∧ ∃ v, corrector_step [1%float] downhill_dwi 100 [0%float] 1.1875%float [] = Ok v
         ∧ fst downhill_run = Ok (Converged 1 v)
         ∧ v ≠ p.
Proof.
  intros p q. split; [do 2 eexists; apply downhill_level0|].
  split; [vm_compute; reflexivity|].
  eexists. split; [vm_compute; reflexivity|]. split; [vm_compute; reflexivity|].
  intros Heq. apply (f_equal (fun l => match l with
                                       | x :: _ => PrimFloat.eqb x 0%float
                                       | [] => false
                                       end)) in Heq.
  vm_compute in Heq. discriminate Heq.
Qed.

(** * Exact arithmetic: the geometry of the micro-steps *)

Section RealVectors.
Local Open Scope R_scope.

Lemma vsum_square_nonneg (v : vec R) : 0 <= vsum (vsquare v).
Proof. unfold vsum, vsquare. induction v as [|x v IH]; cbn in *; [lra|nra]. Qed.

Lemma norm_nonneg (v : vec R) : 0 <= norm v.
Proof. apply sqrt_pos. Qed.

Lemma norm_square (v : vec R) : norm v * norm v = vsum (vsquare v).
Proof. apply sqrt_sqrt, vsum_square_nonneg. Qed.

Lemma norm_nonzero (v : vec R) : Exists (λ x, x ≠ 0) v → norm v ≠ 0.
Proof.
  intros Hex Hz. assert (Hs : vsum (vsquare v) = 0).
  { rewrite <- norm_square, Hz. lra. }
  clear Hz. induction Hex as [x v Hx|x v Hex IH];
    pose proof (vsum_square_nonneg v) as Hv; unfold vsum, vsquare in *; cbn in *.
  - nra.
  - apply IH. nra.
Qed.

Lemma vsub_vadd_cancel (x d : vec R) :
  length d = length x → vsub (vadd x d) x = d.
Proof.
  unfold vsub, vadd. revert d. induction x as [|a x IH]; intros [|b d] Hlen; try done.
  cbn in *. f_equal; [lra|]. apply IH. lia.
Qed.

Lemma vsum_square_scaled (g : vec R) (c n : R) :
  n ≠ 0 →
  vsum (vsquare (vdivs (vscale c (vopp g)) n)) = (c / n) * (c / n) * vsum (vsquare g).
Proof.
  intros Hn. unfold vsum, vsquare, vdivs, vscale, vopp.
  induction g as [|x g IH]; cbn in *; [lra|].
  rewrite IH. field. exact Hn.
Qed.

(** A vector scaled to the length [c] along the unit vector of [-g]. *)
Lemma norm_unit_step (g : vec R) (c : R) :
  0 <= c → norm g ≠ 0 → norm (vdivs (vscale c (vopp g)) (norm g)) = c.
Proof.
  intros Hc Hg. unfold norm at 1. rewrite vsum_square_scaled by exact Hg.
  rewrite <- norm_square.
  replace (c / norm g * (c / norm g) * (norm g * norm g)) with (c * c) by (field; exact Hg).
  by apply sqrt_square.
Qed.

Lemma points_pos k : (20 <= points k)%Z.
Proof. unfold points. pose proof (Z.pow_pos_nonneg 2 (Z.of_nat k)). lia. Qed.

Lemma corr_step_length_nonneg (step_length : R) k :
  0 <= step_length → 0 <= corr_step_length step_length k.
Proof.
  intros Hs. unfold corr_step_length. cbn.
  assert (Hp : 0 < IZR (points k - 1)).
  { apply IZR_lt. pose proof (points_pos k). lia. }
  apply Rmult_le_pos; [exact Hs|]. left. by apply Rinv_0_lt_compat.
Qed.
End RealVectors.

Lemma Rltb_true (x y : R) : (x < y)%R → Rltb x y = true.
Proof. intros Hlt. unfold Rltb. by destruct (Rlt_dec x y). Qed.

Lemma Rltb_false (x y : R) : (y <= x)%R → Rltb x y = false.
Proof. intros Hle. unfold Rltb. destruct (Rlt_dec x y); [lra|done]. Qed.

Lemma Rleb_true (x y : R) : (x <= y)%R → Rleb x y = true.
Proof. intros Hle. unfold Rleb. by destruct (Rle_dec x y). Qed.

Lemma Rleb_false (x y : R) : (y < x)%R → Rleb x y = false.
Proof. intros Hlt. unfold Rleb. destruct (Rle_dec x y); [lra|done]. Qed.

Section RealCorrector.
Local Open Scope R_scope.

Variable m_sqrt : vec R.
Variable dwi_interpolate : list (sample R) -> vec R -> R * vec R.

End RealCorrector.

(** With a mass so light that one micro-step covers the whole step
    length, level 0 records two points. *)
Example light_walk_level0 :
  march_level [(/ 19)%R] downhill_real 2 [] [0%R] 19%R 0
  = MarchDone [[0%R]; [1%R]] [1%R].
Proof.
  assert (Hc : corr_step_length 19%R 0 = 1%R).
  { unfold corr_step_length, points. cbn.
    change (20 * 2 ^ Z.of_nat 0 - 1)%Z with 19%Z. lra. }
  assert (Hstep : micro_step downhill_real [] 1%R [0%R] = [1%R]).
  { unfold micro_step, downhill_real, norm, vsum, vsquare, vadd, vdivs, vscale, vopp.
    cbn. replace (-1 * -1 + 0)%R with 1%R by lra. rewrite sqrt_1.
    f_equal. lra. }
  assert (Hlen : get_integration_length [(/ 19)%R] [0%R] [1%R] = 19%R).
  { unfold get_integration_length, norm, vsum, vsquare, vdiv, vsub. cbn.
    replace ((1 - 0) / / 19 * ((1 - 0) / / 19) + 0)%R with (19 * 19)%R by (field; lra).
    apply sqrt_square. lra. }
  unfold march_level. rewrite Hc. cbn [march].
  cbn [fltb fabs fsub fofZ fmul fdiv real_arith].
  rewrite Rltb_false by (rewrite Rabs_pos_eq; lra).
  rewrite Hstep, Hlen. cbn [app last2 rev lookup list_lookup].
  rewrite Rltb_true; [done|]. rewrite Rminus_diag, Rabs_R0. lra.
Qed.


(** * Properties of the macro-step *)

Section StepFacts.
Context {F : Type} `{Arith F}.
Local Open Scope num_scope.

Variable m_sqrt : vec F.
Variable dwi_interpolate : list (sample F) -> vec F -> F * vec F.
Variable calc_mw_gradient : vec F -> vec F.
Variable calc_energy : vec F -> F.
Variable calc_mw_hessian : vec F -> matrix F.
Variable hessian_update_func : matrix F -> vec F -> vec F -> matrix F * String.string.
Variable unweight_vec : vec F -> vec F.
Variable cfg : config F.

Abbreviation step' :=
  (step m_sqrt dwi_interpolate calc_mw_gradient calc_energy calc_mw_hessian
        hessian_update_func unweight_vec cfg).
Abbreviation refresh_hessian' :=
  (refresh_hessian calc_mw_hessian hessian_update_func cfg).
Abbreviation predictor' := (predictor m_sqrt unweight_vec cfg).
Abbreviation after_predictor' :=
  (after_predictor m_sqrt dwi_interpolate calc_mw_gradient calc_energy
                   hessian_update_func cfg).
Abbreviation evaluate_endpoint' :=
  (evaluate_endpoint calc_mw_gradient calc_energy hessian_update_func).
Abbreviation finish_step' :=
  (finish_step m_sqrt dwi_interpolate calc_mw_gradient calc_energy
               hessian_update_func unweight_vec cfg).

Lemma step_unfold fuel st st1 :
  refresh_hessian' (calc_mw_gradient (mw_coords st)) (calc_energy (mw_coords st))
                   (at_line_77 st) = Ok st1 →
  (0 < max_pred_steps cfg)%Z →
  step' fuel st = finish_step' fuel (mw_coords st1)
                    (predictor' (calc_mw_gradient (mw_coords st)) st1) st1.
Proof.
  intros Href Hmax. unfold step, read_mw_gradient, read_energy.
  cbn [mw_coords log_call]. fold (at_line_77 st). rewrite Href. cbn.
  destruct (max_pred_steps cfg <=? 0)%Z eqn:Hle; [|done].
  apply Z.leb_le in Hle. lia.
Qed.

(** Lines 77-87 leave the coordinates and the two histories alone. *)
Lemma refresh_hessian_frame mw_grad energy st st1 :
  refresh_hessian' mw_grad energy st = Ok st1 →
  mw_coords st1 = mw_coords st ∧ irc_mw_coords st1 = irc_mw_coords st
  ∧ irc_mw_gradients st1 = irc_mw_gradients st ∧ cur_cycle st1 = cur_cycle st
  ∧ converged st1 = converged st.
Proof.
  unfold refresh_hessian. destruct (0 <? cur_cycle st)%Z; [|by intros [= <-]].
  destruct (recalc_due cfg (cur_cycle st)).
  - cbn. by intros [= <-].
  - destruct (last2 (irc_mw_coords st)) as [x2|]; [|done].
    destruct (last2 (irc_mw_gradients st)) as [g2|]; [|done].
    cbn. by intros [= <-].
Qed.

(** An exhausted loop ran all its iterations, each below the target. *)
Lemma euler_loop_exhausted n : ∀ init mw_grad Hm h coords grad lengths,
  e_exit (euler_loop m_sqrt cfg n init mw_grad Hm h coords grad lengths)
    = ExhaustedBudget →
  ∃ new, cur_lengths (euler_loop m_sqrt cfg n init mw_grad Hm h coords grad lengths)
         = lengths ++ new
    ∧ length new = n
    ∧ Forall (λ l, (step_length cfg <=? l) = false) new.
Proof.
  induction n as [|n IH]; intros init g Hm h coords grad lengths Hexit.
  - exists []. cbn. by rewrite app_nil_r.
  - cbn [euler_loop] in *.
    destruct (step_length cfg <=? get_integration_length m_sqrt init coords) eqn:Ht;
      [done|].
    destruct (IH _ _ _ _ _ _ _ Hexit) as (new & Heq & Hlen & Hall).
    exists (get_integration_length m_sqrt init coords :: new).
    rewrite Heq, <- app_assoc. split; [done|]. split; [cbn; lia|].
    by constructor.
Qed.

(** C5.  [step] runs the predictor's Euler loop with the step size
    [step_length / (max_pred_steps / conv_fact)], where [conv_fact] is
    Python's [max] of 2 and of the norm of the un-mass-weighted gradient
    over the norm of the mass-weighted one, and the gradient is the one
    the calculator gave at the point where the macro-step starts. *)
Theorem C5_euler_step_length fuel st st1 :
  let mw_grad := calc_mw_gradient (mw_coords st) in
  let energy := calc_energy (mw_coords st) in
  refresh_hessian' mw_grad energy (at_line_77 st) = Ok st1 →
  (0 < max_pred_steps cfg)%Z →
  let conv_factor := pymax (fofZ 2) (norm (unweight_vec mw_grad) / norm mw_grad) in
  let h := step_length cfg / (fofZ (max_pred_steps cfg) / conv_factor) in
  euler_step_length unweight_vec cfg mw_grad = h ∧
  step' fuel st =
    finish_step' fuel (mw_coords st)
      (euler_loop m_sqrt cfg (Z.to_nat (max_pred_steps cfg)) (mw_coords st) mw_grad
                  (mw_H st1) h (mw_coords st) mw_grad [])
      st1 ∧
  ∀ n coords grad lengths,
    let cur_length := get_integration_length m_sqrt (mw_coords st) coords in
    let coords' := vadd coords (vdivs (vscale h (vopp grad)) (norm grad)) in
    (step_length cfg <=? cur_length) = false →
    euler_loop m_sqrt cfg (S n) (mw_coords st) mw_grad (mw_H st1) h coords grad lengths
    = euler_loop m_sqrt cfg n (mw_coords st) mw_grad (mw_H st1) h coords'
        (taylor_gradient mw_grad (mw_H st1) (vsub coords' (mw_coords st)))
        (lengths ++ [cur_length]).
Proof.
  intros mw_grad energy Href Hmax conv_factor h. split; [done|]. split.
  - rewrite (step_unfold fuel st st1 Href Hmax).
    destruct (refresh_hessian_frame _ _ _ _ Href) as (Hc & _). cbn in Hc.
    unfold predictor. by rewrite Hc.
  - intros n coords grad lengths cur_length coords' Hbelow.
    cbn [euler_loop]. fold cur_length. by rewrite Hbelow.
Qed.



End StepFacts.

(** ** Macro-steps on IEEE binary64 numbers *)

Example bowl_step_result :
  ∃ x st', bowl_step 100 bowl_state = Ok st' ∧ mw_coords st' = [x]
           ∧ PrimFloat.ltb 0.8740234375%float x = true ∧ PrimFloat.ltb x 0.8759765625%float = true.
Proof. do 2 eexists. vm_compute. repeat split. Qed.

Lemma C5_witness :
  let mw_grad := bowl_gradient [1%float] in
  let conv_factor :=
    pymax (fofZ 2) (norm (unit_mass mw_grad) / norm mw_grad)%num in
  let h := (0.125%float / (fofZ 500 / conv_factor))%num in
  euler_step_length unit_mass bowl_cfg mw_grad = h ∧
  bowl_step 100 bowl_state =
    finish_step [1%float] newest_dwi bowl_gradient bowl_energy no_update unit_mass
      bowl_cfg 100 [1%float]
      (euler_loop [1%float] bowl_cfg 500 [1%float] mw_grad [[2%float]] h
                  [1%float] mw_grad [])
      (at_line_77 bowl_state) ∧
  ∀ n coords grad lengths,
    let cur_length := get_integration_length [1%float] [1%float] coords in
    let coords' := vadd coords (vdivs (vscale h (vopp grad)) (norm grad)) in
    (0.125%float <=? cur_length)%num = false →
    euler_loop [1%float] bowl_cfg (S n) [1%float] mw_grad [[2%float]] h coords grad lengths
    = euler_loop [1%float] bowl_cfg n [1%float] mw_grad [[2%float]] h coords'
        (taylor_gradient mw_grad [[2%float]] (vsub coords' [1%float]))
        (lengths ++ [cur_length]).
Proof.
  apply (C5_euler_step_length [1%float] newest_dwi bowl_gradient bowl_energy
           bowl_hessian no_update unit_mass bowl_cfg 100 bowl_state
           (at_line_77 bowl_state)).
  - reflexivity.
  - reflexivity.
Defined.





Example recalc_at_cycle_6 :
  ∃ st1, refresh_hessian bowl_hessian no_update recalc_cfg [2%float] 1%float
                         (recalc_state 6) = Ok st1
    ∧ mw_H st1 = [[2%float]]
    ∧ calls st1 = [CalcHessian [1%float];
                   DwiUpdate (Sample [1%float] 1%float [2%float] [[2%float]])].
Proof. eexists. vm_compute. repeat split. Qed.

Example update_at_cycle_7 :
  ∃ st1, refresh_hessian bowl_hessian no_update recalc_cfg [2%float] 1%float
                         (recalc_state 7) = Ok st1
    ∧ mw_H st1 = [[3%float]]
    ∧ calls st1 = [HessianUpdate [[3%float]] [(-0.25)%float] [(-0.5)%float];
                   DwiUpdate (Sample [1%float] 1%float [2%float] [[3%float]])].
Proof. eexists. vm_compute. repeat split. Qed.

(** C7 as stated fails: on the stiff model the Taylor gradient changes
    sign after the first Euler step, the walk is thrown back to the start
    point, and the integration length goes 0, 1/2, 0, 1/2: it decreases,
    and the loop runs out of iterations half a step away from where it
    started. *)
Lemma C7_counterexample :
  let r := predictor [1%float] unit_mass stiff_cfg [1%float] stiff_state in
  cur_lengths r = [0%float; 0.5%float; 0%float; 0.5%float]
  ∧ e_exit r = ExhaustedBudget
  ∧ ∃ i a b, cur_lengths r !! i = Some a ∧ cur_lengths r !! S i = Some b
             ∧ PrimFloat.ltb b a = true.
Proof.
  split; [vm_compute; reflexivity|]. split; [vm_compute; reflexivity|].
  exists 1%nat, 0.5%float, 0%float. vm_compute. repeat split.
Qed.

(** * Exact arithmetic: the predictor on a constant gradient *)

Section RealPredictor.
Local Open Scope R_scope.

Lemma vsub_vadd_shift (x u y : vec R) :
  vsub (vadd x u) y = vadd (vsub x y) u.
Proof.
  unfold vsub, vadd. revert u y.
  induction x as [|a x IH]; intros [|b u] [|c y]; try done.
  cbn. f_equal; [lra|apply IH].
Qed.

Lemma vadd_vscale_succ (i : nat) (u : vec R) :
  vadd (vscale (INR i) u) u = vscale (INR (S i)) u.
Proof.
  unfold vadd, vscale. induction u as [|a u IH]; [done|].
  cbn [map zip_with]. rewrite IH. f_equal. rewrite S_INR. cbn. lra.
Qed.

Lemma vsub_self_zero (x u : vec R) :
  length x = length u → vsub x x = vscale (INR 0) u.
Proof.
  unfold vsub, vscale. revert u.
  induction x as [|a x IH]; intros [|b u] Hlen; try done.
  cbn in *. f_equal; [lra|]. apply IH. lia.
Qed.

Lemma vdiv_vscale (c : R) (u m : vec R) :
  vdiv (vscale c u) m = vscale c (vdiv u m).
Proof.
  unfold vdiv, vscale. revert m.
  induction u as [|a u IH]; intros [|b m]; try done.
  cbn. f_equal; [unfold Rdiv; ring|apply IH].
Qed.

Lemma vsum_square_vscale (c : R) (v : vec R) :
  vsum (vsquare (vscale c v)) = c * c * vsum (vsquare v).
Proof.
  unfold vsum, vsquare, vscale. induction v as [|a v IH]; cbn in *; [lra|].
  rewrite IH. ring.
Qed.

Lemma norm_vscale (c : R) (v : vec R) : 0 <= c → norm (vscale c v) = c * norm v.
Proof.
  intros Hc. unfold norm. rewrite vsum_square_vscale.
  rewrite sqrt_mult; [|nra|apply vsum_square_nonneg].
  by rewrite sqrt_square.
Qed.

Variable m_sqrt : vec R.
Variable cfg : config R.
Variable init g : vec R.
Variable Hm : matrix R.
Variable h : R.

(** The Taylor gradient is the same wherever the walk stands. *)
Hypothesis taylor_constant : ∀ s, taylor_gradient g Hm s = g.

Abbreviation euler_step_vec' := (euler_step_vec g h).
Abbreviation euler_step_size' := (euler_step_size m_sqrt g h).

Lemma integration_length_steps (i : nat) (coords : vec R) :
  vsub coords init = vscale (INR i) euler_step_vec' →
  get_integration_length m_sqrt init coords = INR i * euler_step_size'.
Proof.
  intros Hinv. unfold get_integration_length. rewrite Hinv, vdiv_vscale.
  apply norm_vscale, pos_INR.
Qed.

(** The loop from its [i]-th iteration on: it records the lengths
    [i*d, (i+1)*d, ...] and stops at the first that reaches the target. *)
Lemma euler_loop_constant n : ∀ i coords lengths,
  vsub coords init = vscale (INR i) euler_step_vec' →
  let r := euler_loop m_sqrt cfg n init g Hm h coords g lengths in
  ∃ m, (m ≤ n)%nat
    ∧ cur_lengths r = lengths ++ map (λ k, INR k * euler_step_size') (seq i m)
    ∧ (∀ k, (i ≤ k)%nat → (S k < i + m)%nat → INR k * euler_step_size' < step_length cfg)
    ∧ match e_exit r with
      | ReachedTarget =>
          (1 ≤ m)%nat
          ∧ step_length cfg <= INR (i + m - 1) * euler_step_size'
          ∧ get_integration_length m_sqrt init (euler_mw_coords r)
            = INR (i + m - 1) * euler_step_size'
      | ExhaustedBudget =>
          m = n
          ∧ (∀ k, (i ≤ k < i + n)%nat → INR k * euler_step_size' < step_length cfg)
          ∧ get_integration_length m_sqrt init (euler_mw_coords r)
            = INR (i + n) * euler_step_size'
      end.
Proof.
  induction n as [|n IH]; intros i coords lengths Hinv r.
  - exists 0%nat. subst r. cbn. rewrite app_nil_r.
    split; [done|]. split; [done|]. split; [intros; lia|]. split; [done|].
    split; [intros; lia|]. rewrite Nat.add_0_r. by apply integration_length_steps.
  - subst r. cbn [euler_loop].
    rewrite (integration_length_steps i coords Hinv).
    cbn [fleb real_arith].
    destruct (Rle_dec (step_length cfg) (INR i * euler_step_size')) as [Hle|Hgt].
    + rewrite Rleb_true by exact Hle. exists 1%nat. cbn.
      split; [lia|]. split; [done|]. split; [intros; lia|]. split; [done|].
      replace (i + 1 - 1)%nat with i by lia.
      split; [exact Hle|]. by apply integration_length_steps.
    + rewrite Rleb_false by lra. rewrite taylor_constant.
      fold (euler_step_vec g h).
      assert (Hinv' : vsub (vadd coords euler_step_vec') init
                      = vscale (INR (S i)) euler_step_vec').
      { by rewrite vsub_vadd_shift, Hinv, vadd_vscale_succ. }
      destruct (IH (S i) _ (lengths ++ [INR i * euler_step_size']) Hinv')
        as (m & Hm' & Hlen & Hbelow & Hexit).
      exists (S m). split; [lia|].
      split; [rewrite Hlen, <- app_assoc; done|].
      split.
      { intros k Hik Hk. destruct (decide (k = i)) as [->|Hne]; [lra|].
        apply Hbelow; lia. }
      destruct (e_exit _).
      * destruct Hexit as (H1 & H2 & H3).
        replace (i + S m - 1)%nat with (S i + m - 1)%nat by lia.
        split; [lia|done].
      * destruct Hexit as (-> & Hall & Hfinal). split; [done|]. split.
        { intros k Hk. destruct (decide (k = i)) as [->|Hne]; [lra|].
          apply Hall. lia. }
        replace (i + S n)%nat with (S i + n)%nat by lia. exact Hfinal.
Qed.
End RealPredictor.

Lemma norm_singleton (x : R) : norm [x] = Rabs x.
Proof.
  unfold norm, vsum, vsquare. cbn. rewrite Rplus_0_r.
  fold (Rsqr x). apply sqrt_Rsqr_abs.
Qed.

(** C7, amended.  The integration length is the un-mass-weighted
    distance of the current point from the start point.  In exact
    arithmetic, when the Taylor gradient is the same all along the walk
    (as it is for a zero Hessian), the length computed at iteration [i] is
    [i * d], with [d] the un-mass-weighted length of one Euler step; the
    lengths are therefore non-decreasing, the loop stops on the target
    test exactly when [(max_pred_steps - 1) * d] reaches [step_length],
    and when [max_pred_steps * d] reaches [step_length] the walk ends,
    either way, at a distance [L] with
    [step_length <= L < step_length + d]. *)
Theorem C7_constant_gradient_lengths (m_sqrt : vec R) (unweight_vec : vec R → vec R)
    (cfg : config R) (mw_grad : vec R) (st : state R) :
  (∀ s, taylor_gradient mw_grad (mw_H st) s = mw_grad) →
  length (mw_coords st) = length mw_grad →
  let h := euler_step_length unweight_vec cfg mw_grad in
  let d := norm (vdiv (vdivs (vscale h (vopp mw_grad)) (norm mw_grad)) m_sqrt) in
  let r := predictor m_sqrt unweight_vec cfg mw_grad st in
  let L := get_integration_length m_sqrt (mw_coords st) (euler_mw_coords r) in
  (∀ i l, cur_lengths r !! i = Some l → l = (INR i * d)%R) ∧
  (∀ i a b, cur_lengths r !! i = Some a → cur_lengths r !! S i = Some b → (a <= b)%R) ∧
  ((0 < max_pred_steps cfg)%Z →
   (e_exit r = ReachedTarget ↔ (step_length cfg <= IZR (max_pred_steps cfg - 1) * d)%R)
   ∧ ((step_length cfg <= IZR (max_pred_steps cfg) * d)%R →
      (step_length cfg <= L)%R
      ∧ ((0 < step_length cfg)%R → (L < step_length cfg + d)%R))).
Proof.
  intros Hconst Hlen h d r L.
  assert (Hinit : vsub (mw_coords st) (mw_coords st)
                  = vscale (INR 0) (euler_step_vec mw_grad h)).
  { apply vsub_self_zero. unfold euler_step_vec, vdivs, vscale, vopp.
    by rewrite !length_map. }
  destruct (euler_loop_constant m_sqrt cfg (mw_coords st) mw_grad (mw_H st) h Hconst
              (Z.to_nat (max_pred_steps cfg)) 0 (mw_coords st) [] Hinit)
    as (m & Hm & Hlens & Hbelow & Hexit).
  subst L r. unfold predictor. fold h.
  set (r := euler_loop m_sqrt cfg (Z.to_nat (max_pred_steps cfg)) (mw_coords st)
                       mw_grad (mw_H st) h (mw_coords st) mw_grad []) in *.
  cbn [app] in Hlens.
  change (euler_step_size m_sqrt mw_grad h) with d in *.
  assert (Hd : (0 <= d)%R) by apply norm_nonneg.
  assert (Hlook : ∀ i l, cur_lengths r !! i = Some l → l = (INR i * d)%R ∧ (i < m)%nat).
  { intros i l Hl. rewrite Hlens in Hl.
    apply list_lookup_fmap_Some in Hl as (k & -> & Hk).
    apply lookup_seq in Hk as [-> Hk]. done. }
  split; [intros i l Hl; by apply Hlook|]. split.
  { intros i a b Ha Hb. apply Hlook in Ha as [-> _]. apply Hlook in Hb as [-> _].
    rewrite S_INR. nra. }
  intros Hmax.
  set (N := Z.to_nat (max_pred_steps cfg)) in *.
  assert (HN1 : IZR (max_pred_steps cfg - 1) = INR (N - 1)).
  { rewrite INR_IZR_INZ. f_equal. lia. }
  assert (HN : IZR (max_pred_steps cfg) = INR N).
  { rewrite INR_IZR_INZ. f_equal. lia. }
  assert (HNpos : (1 ≤ N)%nat) by lia.
  rewrite HN1, HN.
  assert (Hstep : INR N = (INR (N - 1) + 1)%R).
  { replace N with (S (N - 1)) at 1 by lia. apply S_INR. }
  destruct (e_exit r).
  - destruct Hexit as (Hm1 & Hge & Hfinal). cbn [Nat.add] in Hge, Hfinal.
    assert (Hmono : (INR (m - 1) <= INR (N - 1))%R) by (apply le_INR; lia).
    split; [split; [intros _; nra|done]|].
    intros _. rewrite Hfinal. split; [exact Hge|].
    intros Hpos. destruct (decide (m = 1)%nat) as [->|Hne].
    { cbn in Hge. lra. }
    specialize (Hbelow (m - 2)%nat).
    assert ((0 ≤ m - 2)%nat) as H0 by lia.
    assert ((S (m - 2) < 0 + m)%nat) as H1 by lia.
    specialize (Hbelow H0 H1).
    replace (m - 1)%nat with (S (m - 2)) by lia. rewrite S_INR. lra.
  - destruct Hexit as (-> & Hall & Hfinal). cbn [Nat.add] in Hfinal.
    specialize (Hall (N - 1)%nat).
    assert (0 ≤ N - 1 < 0 + N)%nat as Hrange by lia.
    specialize (Hall Hrange).
    split; [split; [done|intros Hreach; lra]|].
    intros Hreach. rewrite Hfinal. split; [exact Hreach|]. intros _. nra.
Qed.

Lemma slope_step_size :
  norm (vdiv (vdivs (vscale (euler_step_length (λ v : vec R, v) slope_cfg [1%R])
                            (vopp [1%R]))
                    (norm [1%R]))
             [1%R]) = (/ 2)%R.
Proof.
  assert (Hh : euler_step_length (λ v : vec R, v) slope_cfg [1%R] = (/ 2)%R).
  { unfold euler_step_length, conv_fact, pymax. cbv beta zeta.
    rewrite norm_singleton, Rabs_R1.
    cbn [fltb fdiv fofZ real_arith step_length max_pred_steps slope_cfg].
    rewrite Rltb_false by lra. lra. }
  rewrite Hh, norm_singleton, Rabs_R1.
  unfold vdiv, vdivs, vscale, vopp. cbn [map zip_with].
  rewrite norm_singleton. cbn [fmul fdiv fopp real_arith].
  replace (/ 2 * - (1) / 1 / 1)%R with (- / 2)%R by lra.
  rewrite Rabs_Ropp, Rabs_pos_eq; lra.
Qed.

Lemma C7_witness :
  let r := predictor [1%R] (λ v : vec R, v) slope_cfg [1%R] slope_state in
  let L := get_integration_length [1%R] [0%R] (euler_mw_coords r) in
  e_exit r = ReachedTarget ∧ (1 <= L)%R ∧ (L < 1 + / 2)%R.
Proof.
  intros r L.
  assert (Hconst : ∀ s, taylor_gradient [1%R] (mw_H slope_state) s = [1%R]).
  { intros s. unfold taylor_gradient, vadd, mat_vec, dot, vsum.
    destruct s as [|x s]; cbn; f_equal; lra. }
  pose proof (C7_constant_gradient_lengths [1%R] (λ v : vec R, v) slope_cfg [1%R]
                slope_state Hconst eq_refl) as W.
  cbv zeta in W. rewrite slope_step_size in W.
  destruct W as (_ & _ & W). destruct (W eq_refl) as [Hexit Hbound].
  change (IZR (max_pred_steps slope_cfg - 1)) with 3%R in Hexit.
  change (IZR (max_pred_steps slope_cfg)) with 4%R in Hbound.
  change (step_length slope_cfg) with 1%R in Hexit, Hbound.
  split; [apply Hexit; lra|].
  destruct Hbound as [Hge Hlt]; [lra|]. split; [exact Hge|]. apply Hlt. lra.
Defined.

(** * More about the corrector *)

Lemma last2_snoc2 {A : Type} (l : list A) (x y : A) : last2 (l ++ [x; y]) = Some x.
Proof. unfold last2. rewrite rev_app_distr. reflexivity. Qed.

Section WalkFacts.
Context {F : Type} `{Arith F}.
Local Open Scope num_scope.

Variable m_sqrt : vec F.
Variable dwi_interpolate : list (sample F) -> vec F -> F * vec F.
Variable dwi : list (sample F).
Variable init_mw_coords : vec F.
Variable step_length : F.
Variable c : F.

Abbreviation walk' := (walk dwi_interpolate dwi init_mw_coords c).
Abbreviation arrived' :=
  (arrived m_sqrt dwi_interpolate dwi init_mw_coords step_length c).
Abbreviation thrown_back' := (thrown_back dwi_interpolate dwi init_mw_coords c).
Abbreviation path_upto n := (map walk' (seq 0 n)).

Lemma last2_path_upto n :
  last2 (path_upto (S n)) = match n with O => None | S n' => Some (walk' n') end.
Proof.
  destruct n as [|n]; [reflexivity|].
  rewrite !seq_S, !map_app. cbn [map Nat.add]. rewrite <- app_assoc. cbn [app].
  apply last2_snoc2.
Qed.

(** What a march that stands at point [n] of the walk does from there:
    it goes on until the first arrival or the first throw-back. *)
Lemma march_walk fuel : ∀ n,
  match march m_sqrt dwi_interpolate fuel dwi init_mw_coords step_length c
              (path_upto n) (walk' n)
              (walk_length m_sqrt dwi_interpolate dwi init_mw_coords c n) with
  | MarchDone k_coords e =>
      ∃ m, (n ≤ m)%nat ∧ k_coords = path_upto (S m) ∧ e = walk' m
        ∧ arrived' m = true
        ∧ (∀ i, (n ≤ i < m)%nat → arrived' i = false)
        ∧ (∀ i, (n ≤ S i < m)%nat → thrown_back' i = false)
  | MarchOscillation p =>
      ∃ m, (n ≤ S m)%nat ∧ p = walk' m ∧ thrown_back' m = true
        ∧ (∀ i, (n ≤ i ≤ S m)%nat → arrived' i = false)
        ∧ (∀ i, (n ≤ S i ≤ m)%nat → thrown_back' i = false)
  | MarchOutOfFuel => True
  end.
Proof.
  induction fuel as [|fuel IH]; intros n; [done|].
  cbn [march].
  assert (Hsnoc : path_upto n ++ [walk' n] = path_upto (S n)).
  { by rewrite seq_S, map_app. }
  rewrite Hsnoc.
  change (fabs (step_length - walk_length m_sqrt dwi_interpolate dwi init_mw_coords c n)
          <? fofZ 1 / fofZ 2 * c) with (arrived' n).
  destruct (arrived' n) eqn:Harr.
  { exists n. split; [lia|]. split; [done|]. split; [done|]. split; [done|].
    split; intros; lia. }
  change (micro_step dwi_interpolate dwi c (walk' n)) with (walk' (S n)).
  change (get_integration_length m_sqrt init_mw_coords (walk' (S n)))
    with (walk_length m_sqrt dwi_interpolate dwi init_mw_coords c (S n)).
  rewrite last2_path_upto.
  pose proof (IH (S n)) as Hrec.
  assert (Hgo :
    match march m_sqrt dwi_interpolate fuel dwi init_mw_coords step_length c
                (path_upto (S n)) (walk' (S n))
                (walk_length m_sqrt dwi_interpolate dwi init_mw_coords c (S n)) with
    | MarchDone k_coords e =>
        ∃ m, (n ≤ m)%nat ∧ k_coords = path_upto (S m) ∧ e = walk' m
          ∧ arrived' m = true
          ∧ (∀ i, (n ≤ i < m)%nat → arrived' i = false)
          ∧ (∀ i, (S n ≤ S i < m)%nat → thrown_back' i = false)
    | MarchOscillation p =>
        ∃ m, (S n ≤ S m)%nat ∧ p = walk' m ∧ thrown_back' m = true
          ∧ (∀ i, (n ≤ i ≤ S m)%nat → arrived' i = false)
          ∧ (∀ i, (S n ≤ S i ≤ m)%nat → thrown_back' i = false)
    | MarchOutOfFuel => True
    end).
  { destruct (march _ _ _ _ _ _ _ _ _ _) as [kc e|p|]; [| |done].
    - destruct Hrec as (m & Hm & -> & -> & Ha & Hb & Hc).
      exists m. split; [lia|]. split; [done|]. split; [done|]. split; [done|].
      split; [|done]. intros i Hi.
      destruct (decide (i = n)) as [->|Hne]; [done|]. apply Hb. lia.
    - destruct Hrec as (m & Hm & -> & Ht & Hb & Hc).
      exists m. split; [lia|]. split; [done|]. split; [done|].
      split; [|done]. intros i Hi.
      destruct (decide (i = n)) as [->|Hne]; [done|]. apply Hb. lia. }
  destruct n as [|n].
  - destruct (march _ _ _ _ _ _ _ _ _ _) as [kc e|p|]; [| |done].
    + destruct Hgo as (m & Hm & -> & -> & Ha & Hb & Hc).
      exists m. split; [lia|]. split; [done|]. split; [done|]. split; [done|].
      split; [done|]. intros i Hi. apply Hc. lia.
    + destruct Hgo as (m & Hm & -> & Ht & Hb & Hc).
      exists m. split; [lia|]. split; [done|]. split; [done|].
      split; [done|]. intros i Hi. apply Hc. lia.
  - change (norm (vsub (walk' (S (S n))) (walk' n)) <=? c) with (thrown_back' n).
    destruct (thrown_back' n) eqn:Hosc.
    + exists n. split; [lia|]. split; [done|]. split; [done|].
      split; [|intros; lia]. intros i Hi.
      assert (i = S n) as -> by lia. done.
    + destruct (march _ _ _ _ _ _ _ _ _ _) as [kc e|p|]; [| |done].
      * destruct Hgo as (m & Hm & -> & -> & Ha & Hb & Hc).
        exists m. split; [lia|]. split; [done|]. split; [done|]. split; [done|].
        split; [done|]. intros i Hi.
        destruct (decide (i = n)) as [->|Hne]; [done|]. apply Hc. lia.
      * destruct Hgo as (m & Hm & -> & Ht & Hb & Hc).
        exists m. split; [lia|]. split; [done|]. split; [done|].
        split; [done|]. intros i Hi.
        destruct (decide (i = n)) as [->|Hne]; [done|]. apply Hc. lia.
Qed.
End WalkFacts.

Section WalkEnds.
Context {F : Type} `{Arith F}.
Local Open Scope num_scope.

Variable m_sqrt : vec F.
Variable dwi_interpolate : list (sample F) -> vec F -> F * vec F.
Variable dwi : list (sample F).
Variable init_mw_coords : vec F.
Variable step_length : F.
Variable c : F.

Abbreviation walk_ := (walk dwi_interpolate dwi init_mw_coords c).
Abbreviation arrived_ :=
  (arrived m_sqrt dwi_interpolate dwi init_mw_coords step_length c).
Abbreviation thrown_back_ := (thrown_back dwi_interpolate dwi init_mw_coords c).

Abbreviation leaves_at_ :=
  (leaves_at m_sqrt dwi_interpolate dwi init_mw_coords step_length c).

(** With an iteration that leaves the loop within reach of the fuel, the
    march ends. *)
Lemma march_enough_fuel fuel : ∀ n i,
  (n ≤ i < n + fuel)%nat → leaves_at_ i = true →
  march m_sqrt dwi_interpolate fuel dwi init_mw_coords step_length c
        (map walk_ (seq 0 n)) (walk_ n)
        (walk_length m_sqrt dwi_interpolate dwi init_mw_coords c n)
  ≠ MarchOutOfFuel.
Proof.
  induction fuel as [|fuel IH]; intros n i Hi Hleave; [lia|].
  cbn [march].
  assert (Hsnoc : map walk_ (seq 0 n) ++ [walk_ n] = map walk_ (seq 0 (S n))).
  { by rewrite seq_S, map_app. }
  rewrite Hsnoc.
  change (fabs (step_length - walk_length m_sqrt dwi_interpolate dwi init_mw_coords c n)
          <? fofZ 1 / fofZ 2 * c) with (arrived_ n).
  destruct (arrived_ n) eqn:Harr; [done|].
  change (micro_step dwi_interpolate dwi c (walk_ n)) with (walk_ (S n)).
  change (get_integration_length m_sqrt init_mw_coords (walk_ (S n)))
    with (walk_length m_sqrt dwi_interpolate dwi init_mw_coords c (S n)).
  rewrite last2_path_upto.
  destruct n as [|n].
  - apply (IH 1%nat i); [|done].
    destruct (decide (i = 0%nat)) as [->|Hne]; [|lia].
    unfold leaves_at in Hleave. rewrite Harr in Hleave. done.
  - change (norm (vsub (walk_ (S (S n))) (walk_ n)) <=? c) with (thrown_back_ n).
    destruct (thrown_back_ n) eqn:Hosc; [done|].
    apply (IH (S (S n)) i); [|done].
    destruct (decide (i = S n)) as [->|Hne]; [|lia].
    unfold leaves_at in Hleave. rewrite Harr, Hosc in Hleave. done.
Qed.

(** X15.  The [while True] loop of a level ends exactly when the walk
    of micro-steps arrives at the target length or is thrown back at
    some point; on a walk that does neither it never ends.  When the walk
    arrives at its point [i], or is thrown back there, [i + 2] iterations
    are enough. *)
Theorem march_ends_iff :
  ((∃ fuel, march m_sqrt dwi_interpolate fuel dwi init_mw_coords step_length c
                  [] init_mw_coords (fofZ 0) ≠ MarchOutOfFuel)
   ↔ ∃ i, arrived_ i = true ∨ thrown_back_ i = true)
  ∧ ∀ i, arrived_ i = true ∨ thrown_back_ i = true →
      march m_sqrt dwi_interpolate (S (S i)) dwi init_mw_coords step_length c
            [] init_mw_coords (fofZ 0) ≠ MarchOutOfFuel.
Proof.
  assert (Hlive : ∀ i, arrived_ i = true ∨ thrown_back_ i = true →
            march m_sqrt dwi_interpolate (S (S i)) dwi init_mw_coords step_length c
                  [] init_mw_coords (fofZ 0) ≠ MarchOutOfFuel).
  { intros i [Ha|Ht].
    - apply (march_enough_fuel (S (S i)) 0 i); [lia|].
      unfold leaves_at. by rewrite Ha.
    - apply (march_enough_fuel (S (S i)) 0 (S i)); [lia|].
      unfold leaves_at. rewrite Ht. apply orb_true_r. }
  split; [|exact Hlive]. split.
  - intros [fuel Hfuel].
    pose proof (march_walk m_sqrt dwi_interpolate dwi init_mw_coords step_length c
                  fuel 0) as Hw.
    change (map walk_ (seq 0 0)) with (@nil (vec F)) in Hw.
    change (walk_ 0) with init_mw_coords in Hw.
    change (walk_length m_sqrt dwi_interpolate dwi init_mw_coords c 0)
      with (fofZ 0) in Hw.
    destruct (march _ _ _ _ _ _ _ _ _ _) as [kc e|p|]; [| |done].
    + destruct Hw as (m & _ & _ & _ & Ha & _). exists m. by left.
    + destruct Hw as (m & _ & _ & Ht & _). exists m. by right.
  - intros [i Hi]. exists (S (S i)). by apply Hlive.
Qed.
End WalkEnds.

Section TableKeys.
Context {F : Type} `{Arith F}.
Local Open Scope num_scope.

Variable m_sqrt : vec F.
Variable dwi_interpolate : list (sample F) -> vec F -> F * vec F.
Variable fuel : nat.
Variable dwi : list (sample F).
Variable init_mw_coords : vec F.
Variable step_length : F.

Abbreviation table := (gmap (nat * nat) (vec F)).

(** The inner loop writes keys of row [k] only, with the [j] it ran over. *)
Lemma extrapolate_keys k js : ∀ (t t' : table),
  extrapolate k js t = Ok t' →
  ∀ i j, is_Some (t' !! (i, j)) → is_Some (t !! (i, j)) ∨ (i = k ∧ j ∈ js).
Proof.
  induction js as [|j0 js IH]; intros t t' Hex i j Hsome.
  - injection Hex as <-. by left.
  - cbn [extrapolate] in Hex.
    destruct (t !! (k, (j0 - 1)%nat)) as [a|]; [|done].
    destruct (t !! ((k - 1)%nat, (j0 - 1)%nat)) as [b|]; [|done].
    cbn in Hex. destruct (IH _ _ Hex i j Hsome) as [Hin|[-> Hin]].
    + destruct (decide ((k, j0) = (i, j))) as [[= <- <-]|Hne].
      * right. split; [done|]. apply list_elem_of_here.
      * left. by rewrite lookup_insert_ne in Hin.
    + right. split; [done|]. by apply list_elem_of_further.
Qed.

Lemma extrapolate_error_free k js : ∀ (t : table) e,
  extrapolate k js t = Raise e → e = KeyError.
Proof.
  induction js as [|j0 js IH]; intros t e Hex; [done|].
  cbn [extrapolate] in Hex.
  destruct (t !! (k, (j0 - 1)%nat)) as [a|]; [|by injection Hex as <-].
  destruct (t !! ((k - 1)%nat, (j0 - 1)%nat)) as [b|]; [|by injection Hex as <-].
  cbn in Hex. by apply IH in Hex.
Qed.

(** The level loop keeps the table triangular. *)
Lemma corrector_levels_triangular ks : ∀ (t : table) o t',
  (∀ i j, is_Some (t !! (i, j)) → (j ≤ i)%nat) →
  corrector_levels m_sqrt dwi_interpolate fuel dwi init_mw_coords step_length ks t
    = (o, t') →
  ∀ i j, is_Some (t' !! (i, j)) → (j ≤ i)%nat.
Proof.
  induction ks as [|k ks IH]; intros t o t' Htri Hrun.
  - injection Hrun as <- <-. done.
  - cbn [corrector_levels] in Hrun.
    destruct (march_level _ _ _ _ _ _ _) as [kc e|p|];
      [|by injection Hrun as <- <-|by injection Hrun as <- <-].
    assert (Htri0 : ∀ i j, is_Some (<[(k, 0%nat):=e]> t !! (i, j)) → (j ≤ i)%nat).
    { intros i j Hs. destruct (decide ((k, 0%nat) = (i, j))) as [[= <- <-]|Hne]; [lia|].
      rewrite lookup_insert_ne in Hs by done. by apply Htri. }
    destruct (extrapolate k (seq 1 k) (<[(k, 0%nat):=e]> t)) as [t1|err|] eqn:Hex;
      [|by injection Hrun as <- <-|by injection Hrun as <- <-].
    assert (Htri1 : ∀ i j, is_Some (t1 !! (i, j)) → (j ≤ i)%nat).
    { intros i j Hs. destruct (extrapolate_keys _ _ _ _ Hex i j Hs) as [Hin|[-> Hin]].
      - by apply Htri0.
      - apply elem_of_seq in Hin. lia. }
    destruct (0 <? k)%nat; [|by eapply IH].
    destruct (t1 !! (k, k)) as [a|]; [|by injection Hrun as <- <-].
    destruct (t1 !! (k, (k - 1)%nat)) as [b|]; [|by injection Hrun as <- <-].
    destruct (rms_error a b <=? richardson_tol); [by injection Hrun as <- <-|].
    by eapply IH.
Qed.

(** X1.  When [corrector_step] is left, the Richardson dict holds
    exactly the keys [(k, j)] with [j ≤ k < n], where [n] is the number of
    levels marched to their end: one more than the level of a convergence
    exit, the level of an oscillation exit, 15 when the error is raised. *)
Theorem richardson_keys_triangular (o : res (corrector_exit F)) (t : table) :
  corrector_run m_sqrt dwi_interpolate fuel init_mw_coords step_length dwi = (o, t) →
  ∃ n, (n ≤ 15)%nat
    ∧ (∀ k j, is_Some (t !! (k, j)) ↔ (j ≤ k < n)%nat)
    ∧ match o with
      | Ok (Converged k _) => n = S k
      | Ok (Oscillation k _) => n = k
      | Raise _ => n = 15%nat
      | OutOfFuel => True
      end.
Proof.
  intros Hrun.
  destruct (corrector_run_spec _ _ _ _ _ _ o t Hrun)
    as (n & Hn & [Hrows Hfresh] & Hun & Hex).
  exists n. split; [done|]. split.
  - intros k j. split.
    + intros Hs. split.
      * eapply corrector_levels_triangular; [|exact Hrun|exact Hs].
        intros i j' Hs'. rewrite lookup_empty in Hs'. by destruct Hs'.
      * destruct (decide (k < n)%nat) as [|Hge]; [done|].
        rewrite Hfresh in Hs by lia. by destruct Hs.
    + intros [Hj Hk]. eapply row_ok_complete; [by apply Hrows|done].
  - destruct o as [[k v|k p]|e|]; [| | |done].
    + by destruct Hex as (-> & _).
    + by destruct Hex as (-> & _).
    + destruct e; try done. by destruct Hex as (-> & _).
Qed.

Abbreviation level_size k := (step_length / fofZ (20 * 2 ^ Z.of_nat k - 1)).

(** X2.  The end point that [corrector_step] stores for level [k] is
    the first point of the walk of micro-steps from [init_mw_coords] at
    which the arrival test holds ([abs(step_length - cur_length)] below
    half the step size), and no throw-back was seen before it. *)
Theorem level_end_point_first_arrival (o : res (corrector_exit F)) (t : table) k e :
  corrector_run m_sqrt dwi_interpolate fuel init_mw_coords step_length dwi = (o, t) →
  t !! (k, 0%nat) = Some e →
  ∃ m, e = walk dwi_interpolate dwi init_mw_coords (level_size k) m
    ∧ arrived m_sqrt dwi_interpolate dwi init_mw_coords step_length (level_size k) m = true
    ∧ (∀ i, (i < m)%nat →
         arrived m_sqrt dwi_interpolate dwi init_mw_coords step_length (level_size k) i
         = false)
    ∧ (∀ i, (S i < m)%nat →
         thrown_back dwi_interpolate dwi init_mw_coords (level_size k) i = false).
Proof.
  intros Hrun Hk0.
  destruct (corrector_run_spec _ _ _ _ _ _ o t Hrun)
    as (n & Hn & [Hrows Hfresh] & _).
  assert (Hlt : (k < n)%nat).
  { destruct (decide (k < n)%nat) as [|Hge]; [done|].
    rewrite Hfresh in Hk0 by lia. done. }
  destruct (Hrows k Hlt) as [(kc & e' & Hm & He') _].
  rewrite Hk0 in He'. injection He' as <-.
  pose proof (march_walk m_sqrt dwi_interpolate dwi init_mw_coords step_length
                (level_size k) fuel 0) as Hw.
  unfold march_level, corr_step_length, points in Hm. cbn [seq map] in Hw.
  change (walk dwi_interpolate dwi init_mw_coords (level_size k) 0)
    with init_mw_coords in Hw.
  change (walk_length m_sqrt dwi_interpolate dwi init_mw_coords (level_size k) 0)
    with (fofZ 0) in Hw.
  rewrite Hm in Hw. destruct Hw as (m & _ & _ & -> & Ha & Hb & Hc).
  exists m. split; [done|]. split; [done|].
  split; intros i Hi; [apply Hb|apply Hc]; lia.
Qed.

(** X3.  [corrector_step] leaves through the oscillation guard of level
    [k] only if the walk of that level was really thrown back: the point
    it returns is a point [m] of the walk, the point [m + 2] lies within
    the step size of it, no earlier pair did, and the walk had not arrived
    up to point [m + 1].  Nothing of level [k] is in the Richardson dict
    then. *)
Theorem oscillation_exit_thrown_back (o : res (corrector_exit F)) (t : table) k p :
  corrector_run m_sqrt dwi_interpolate fuel init_mw_coords step_length dwi = (o, t) →
  o = Ok (Oscillation k p) →
  (∃ m, p = walk dwi_interpolate dwi init_mw_coords (level_size k) m
     ∧ thrown_back dwi_interpolate dwi init_mw_coords (level_size k) m = true
     ∧ (∀ i, (i < m)%nat →
          thrown_back dwi_interpolate dwi init_mw_coords (level_size k) i = false)
     ∧ (∀ i, (i ≤ S m)%nat →
          arrived m_sqrt dwi_interpolate dwi init_mw_coords step_length (level_size k) i
          = false))
  ∧ (∀ j, t !! (k, j) = None)
  ∧ corrector_step m_sqrt dwi_interpolate fuel init_mw_coords step_length dwi = Ok p.
Proof.
  intros Hrun ->.
  destruct (corrector_run_spec _ _ _ _ _ _ _ t Hrun)
    as (n & Hn & [Hrows Hfresh] & _ & Hex).
  destruct Hex as (-> & _ & _ & Hm).
  pose proof (march_walk m_sqrt dwi_interpolate dwi init_mw_coords step_length
                (level_size k) fuel 0) as Hw.
  unfold march_level, corr_step_length, points in Hm. cbn [seq map] in Hw.
  change (walk dwi_interpolate dwi init_mw_coords (level_size k) 0)
    with init_mw_coords in Hw.
  change (walk_length m_sqrt dwi_interpolate dwi init_mw_coords (level_size k) 0)
    with (fofZ 0) in Hw.
  rewrite Hm in Hw. destruct Hw as (m & _ & -> & Ht & Hb & Hc).
  split.
  { exists m. split; [done|]. split; [done|].
    split; intros i Hi; [apply Hc|apply Hb]; lia. }
  split; [intros j; by apply Hfresh|].
  unfold corrector_step. by rewrite Hrun.
Qed.
End TableKeys.

Section RealExtrapolation.
Local Open Scope R_scope.

Variable m_sqrt : vec R.
Variable dwi_interpolate : list (sample R) -> vec R -> R * vec R.
Variable fuel : nat.
Variable dwi : list (sample R).
Variable init_mw_coords : vec R.
Variable step_length : R.

Lemma level1_formula (e1 e0 : vec R) :
  richardson_formula 1 e1 e0 = zip_with (λ a b, 2 * a - b) e1 e0.
Proof.
  unfold richardson_formula, vdivs, vsub, vscale. cbn [fofZ real_arith].
  change (2 ^ Z.of_nat 1)%Z with 2%Z. change (2 - 1)%Z with 1%Z.
  revert e0. induction e1 as [|a e1 IH]; intros [|b e0]; try done.
  cbn in *. rewrite IH. f_equal. cbn. lra.
Qed.

Lemma level1_difference (e1 e0 : vec R) :
  vsub (zip_with (λ a b, 2 * a - b) e1 e0) e1 = vsub e1 e0.
Proof.
  unfold vsub. revert e0. induction e1 as [|a e1 IH]; intros [|b e0]; try done.
  cbn in *. rewrite IH. f_equal. lra.
Qed.

(** X4.  In exact arithmetic, when levels 0 and 1 are marched to their
    ends [e0] and [e1], the error estimate of level 1 is the RMS of
    [e1 - e0]; [corrector_step] returns at level 1 exactly when that is at
    most [1e-5], and what it returns is the linear extrapolation
    [2 * e1 - e0]. *)
Theorem level1_linear_extrapolation k_coords0 e0 k_coords1 e1 :
  march_level m_sqrt dwi_interpolate fuel dwi init_mw_coords step_length 0
    = MarchDone k_coords0 e0 →
  march_level m_sqrt dwi_interpolate fuel dwi init_mw_coords step_length 1
    = MarchDone k_coords1 e1 →
  let error := sqrt (mean (vsquare (vsub e1 e0))) in
  let r := corrector_run m_sqrt dwi_interpolate fuel init_mw_coords step_length dwi in
  (error <= / 100000 →
     fst r = Ok (Converged 1 (zip_with (λ a b, 2 * a - b) e1 e0))
     ∧ corrector_step m_sqrt dwi_interpolate fuel init_mw_coords step_length dwi
       = Ok (zip_with (λ a b, 2 * a - b) e1 e0))
  ∧ (/ 100000 < error → ∀ v, fst r ≠ Ok (Converged 1 v)).
Proof.
  intros Hm0 Hm1 error r.
  assert (Hrun : r =
    let t1 := <[(1%nat, 1%nat) := zip_with (λ a b, 2 * a - b) e1 e0]>
                (<[(1%nat, 0%nat) := e1]> (<[(0%nat, 0%nat) := e0]> ∅)) in
    if Rleb error (/ 100000)
    then (Ok (Converged 1 (zip_with (λ a b, 2 * a - b) e1 e0)), t1)
    else corrector_levels m_sqrt dwi_interpolate fuel dwi init_mw_coords step_length
                          (seq 2 13) t1).
  { subst r. unfold corrector_run. cbn [seq corrector_levels].
    rewrite Hm0. cbn [extrapolate Nat.ltb Nat.leb]. rewrite Hm1.
    cbn [extrapolate Nat.sub].
    rewrite lookup_insert_eq, lookup_insert_ne by done.
    rewrite lookup_insert_eq. cbn [key_or_raise mbind res_bind].
    rewrite level1_formula. cbn [Nat.ltb Nat.leb Nat.sub].
    rewrite lookup_insert_eq, lookup_insert_ne by done.
    rewrite lookup_insert_eq.
    unfold rms_error, richardson_tol. rewrite level1_difference.
    cbn [fleb fdiv fofZ fsqrt real_arith]. fold error.
    replace (1 / 100000) with (/ 100000) by lra. reflexivity. }
  split.
  - intros Hle. unfold corrector_step. fold r. rewrite Hrun. cbv zeta.
    by rewrite Rleb_true.
  - intros Hgt v Hv.
    destruct (corrector_run_spec _ _ _ _ _ _ (fst r) (snd r) (surjective_pairing r))
      as (n & _ & [Hrows _] & _ & Hex).
    rewrite Hv in Hex. destruct Hex as (-> & _ & w & Hv' & Hw & Htest).
    destruct (Hrows 0%nat) as [(kc & e & Hm & He) _]; [lia|].
    rewrite Hm0 in Hm. injection Hm as <- <-.
    destruct (Hrows 1%nat) as [(kc & e & Hm & He1) Hent]; [lia|].
    rewrite Hm1 in Hm. injection Hm as <- <-.
    destruct (Hent 1%nat) as (a & b & Ha & Hb & Hf); [lia|].
    cbn [Nat.sub] in *. rewrite He1 in Ha, Hw. rewrite He in Hb.
    injection Ha as <-. injection Hb as <-. injection Hw as <-.
    rewrite Hf in Hv'. injection Hv' as <-.
    unfold rms_error, richardson_tol in Htest.
    rewrite level1_formula, level1_difference in Htest.
    cbn [fleb fdiv fofZ fsqrt real_arith] in Htest. fold error in Htest.
    rewrite Rleb_false in Htest by lra. done.
Qed.
End RealExtrapolation.

(** * More about the macro-step *)

Section StepMore.
Context {F : Type} `{Arith F}.
Local Open Scope num_scope.

Variable m_sqrt : vec F.
Variable dwi_interpolate : list (sample F) -> vec F -> F * vec F.
Variable calc_mw_gradient : vec F -> vec F.
Variable calc_energy : vec F -> F.
Variable calc_mw_hessian : vec F -> matrix F.
Variable hessian_update_func : matrix F -> vec F -> vec F -> matrix F * String.string.
Variable unweight_vec : vec F -> vec F.
Variable cfg : config F.

Abbreviation step' :=
  (step m_sqrt dwi_interpolate calc_mw_gradient calc_energy calc_mw_hessian
        hessian_update_func unweight_vec cfg).
Abbreviation refresh_hessian' :=
  (refresh_hessian calc_mw_hessian hessian_update_func cfg).
Abbreviation predictor' := (predictor m_sqrt unweight_vec cfg).
Abbreviation evaluate_endpoint' :=
  (evaluate_endpoint calc_mw_gradient calc_energy hessian_update_func).
Abbreviation corrector_step' := (corrector_step m_sqrt dwi_interpolate).
Abbreviation returns_early' := (returns_early unweight_vec cfg).

(** The three ways through lines 77-87. *)
Lemma refresh_hessian_cases mw_grad energy st :
  let x := mw_coords st in
  (¬ (0 < cur_cycle st)%Z ∧ refresh_hessian' mw_grad energy st = Ok st)
  ∨ ((0 < cur_cycle st)%Z ∧ recalc_due cfg (cur_cycle st) = true
     ∧ refresh_hessian' mw_grad energy st
       = Ok (dwi_update (Sample x energy mw_grad (calc_mw_hessian x))
               (set_mw_H (calc_mw_hessian x) (log_call (CalcHessian x) st))))
  ∨ ((0 < cur_cycle st)%Z ∧ recalc_due cfg (cur_cycle st) = false
     ∧ ((last2 (irc_mw_coords st) = None ∨ last2 (irc_mw_gradients st) = None)
        ∧ refresh_hessian' mw_grad energy st = Raise IndexError
        ∨ ∃ x2 g2, last2 (irc_mw_coords st) = Some x2
            ∧ last2 (irc_mw_gradients st) = Some g2
            ∧ refresh_hessian' mw_grad energy st
              = Ok (dwi_update
                      (Sample x energy mw_grad
                         (madd (mw_H st)
                            (fst (hessian_update_func (mw_H st) (vsub x x2)
                                    (vsub mw_grad g2)))))
                      (quasi_newton hessian_update_func (vsub x x2) (vsub mw_grad g2)
                                    st)))).
Proof.
  intros x. unfold refresh_hessian.
  destruct (0 <? cur_cycle st)%Z eqn:Hc.
  2:{ left. apply Z.ltb_ge in Hc. split; [lia|done]. }
  apply Z.ltb_lt in Hc. right.
  destruct (recalc_due cfg (cur_cycle st)); [left; done|].
  right. split; [done|]. split; [done|].
  destruct (last2 (irc_mw_coords st)) as [x2|]; [|left; split; [by left|done]].
  destruct (last2 (irc_mw_gradients st)) as [g2|]; [|left; split; [by right|done]].
  right. by exists x2, g2.
Qed.

Lemma evaluate_endpoint_cases r st :
  let x := euler_mw_coords r in
  let g := calc_mw_gradient x in
  let e := calc_energy x in
  ((last1 (irc_mw_coords st) = None ∨ last1 (irc_mw_gradients st) = None)
   ∧ evaluate_endpoint' r st = Raise IndexError)
  ∨ ∃ x1 g1, last1 (irc_mw_coords st) = Some x1
      ∧ last1 (irc_mw_gradients st) = Some g1
      ∧ evaluate_endpoint' r st
        = Ok (dwi_update
                (Sample x e g
                   (madd (mw_H st)
                      (fst (hessian_update_func (mw_H st) (vsub x x1) (vsub g g1)))))
                (quasi_newton hessian_update_func (vsub x x1) (vsub g g1)
                   (log_call (CalcEnergy x)
                      (log_call (CalcGradient x) (set_mw_coords x st))))).
Proof.
  intros x g e. unfold evaluate_endpoint, read_mw_gradient, read_energy.
  cbn -[last1 vsub madd].
  destruct (last1 (irc_mw_coords st)) as [x1|]; [|left; split; [by left|done]].
  destruct (last1 (irc_mw_gradients st)) as [g1|]; [|left; split; [by right|done]].
  right. by exists x1, g1.
Qed.

(** Every run of [step] that returns. *)
Lemma step_cases fuel st st' :
  step' fuel st = Ok st' →
  ∃ st1,
    refresh_hessian' (calc_mw_gradient (mw_coords st)) (calc_energy (mw_coords st))
                     (at_line_77 st) = Ok st1
    ∧ (0 < max_pred_steps cfg)%Z
    ∧ let r := predictor' (calc_mw_gradient (mw_coords st)) st1 in
      (returns_early' r = true
       ∧ st' = set_converged true (set_mw_coords (euler_mw_coords r) st1))
      ∨ (returns_early' r = false
         ∧ ∃ st2 corrected,
             evaluate_endpoint' r st1 = Ok st2
             ∧ corrector_step' fuel (mw_coords st) (step_length cfg) (dwi st2)
               = Ok corrected
             ∧ st' = set_mw_coords corrected st2).
Proof.
  unfold step, read_mw_gradient, read_energy. cbn [mw_coords log_call].
  fold (at_line_77 st).
  destruct (refresh_hessian' _ _ (at_line_77 st)) as [st1|e|] eqn:Href; [|done|done].
  cbn [mbind res_bind].
  destruct (max_pred_steps cfg <=? 0)%Z eqn:Hmax; [done|].
  apply Z.leb_gt in Hmax. intros Hfin. exists st1. split; [done|]. split; [lia|].
  destruct (refresh_hessian_frame _ _ _ _ _ _ _ Href) as (Hc & _). cbn in Hc.
  set (r := predictor' (calc_mw_gradient (mw_coords st)) st1) in *. cbv zeta.
  assert (Hafter : ∀ st0,
            after_predictor m_sqrt dwi_interpolate calc_mw_gradient calc_energy
              hessian_update_func cfg fuel (mw_coords st1) r st0 = Ok st' →
            evaluate_endpoint' r st0 = evaluate_endpoint' r st1 →
            ∃ st2 corrected,
              evaluate_endpoint' r st1 = Ok st2
              ∧ corrector_step' fuel (mw_coords st) (step_length cfg) (dwi st2)
                = Ok corrected
              ∧ st' = set_mw_coords corrected st2).
  { intros st0 Ha He. unfold after_predictor in Ha. rewrite He in Ha.
    destruct (evaluate_endpoint' r st1) as [st2|e|]; [|done|done].
    cbn [mbind res_bind] in Ha. rewrite Hc in Ha.
    destruct (corrector_step' fuel (mw_coords st) (step_length cfg) (dwi st2))
      as [corrected|e|] eqn:Hcorr; [|done|done].
    cbn in Ha. injection Ha as <-. by exists st2, corrected. }
  unfold finish_step, on_exhausted in Hfin. unfold returns_early'.
  destruct (e_exit r).
  - right. split; [done|]. by apply (Hafter st1).
  - destruct (rms (unweight_vec (euler_mw_grad r)) <=? fofZ 5 * rms_grad_thresh cfg).
    + left. split; [done|]. by injection Hfin as <-.
    + right. split; [done|]. apply (Hafter _ Hfin). done.
Qed.

(** What lines 77-87 add to the DWI and to the calls. *)
Lemma refresh_hessian_effect mw_grad energy st st1 :
  refresh_hessian' mw_grad energy st = Ok st1 →
  ∃ new cs,
    dwi st1 = dwi st ++ new ∧ calls st1 = calls st ++ cs
    ∧ length new = (if (0 <? cur_cycle st)%Z then 1 else 0)%nat
    ∧ existsb is_calc_hessian cs = (0 <? cur_cycle st)%Z && recalc_due cfg (cur_cycle st)
    ∧ Forall (λ s, s_hessian s = mw_H st1) new.
Proof.
  intros Href.
  destruct (refresh_hessian_cases mw_grad energy st)
    as [[Hc Heq]|[(Hc & Hdue & Heq)|(Hc & Hdue & [[_ Heq]|(x2 & g2 & _ & _ & Heq)])]];
    rewrite Heq in Href; try done; injection Href as <-.
  - exists [], []. rewrite !app_nil_r.
    destruct (0 <? cur_cycle st)%Z eqn:Hlt; [apply Z.ltb_lt in Hlt; lia|]. done.
  - eexists [_], [_; _]. cbn -[vsub madd]. rewrite <- app_assoc.
    apply Z.ltb_lt in Hc. rewrite Hc, Hdue. repeat split. by constructor.
  - eexists [_], [_; _]. cbn -[vsub madd]. rewrite <- app_assoc.
    apply Z.ltb_lt in Hc. rewrite Hc, Hdue. repeat split. by constructor.
Qed.

(** What lines 174-188 add. *)
Lemma evaluate_endpoint_effect r st st2 :
  evaluate_endpoint' r st = Ok st2 →
  ∃ s cs,
    dwi st2 = dwi st ++ [s] ∧ calls st2 = calls st ++ cs
    ∧ existsb is_calc_hessian cs = false
    ∧ s_coords s = euler_mw_coords r ∧ s_hessian s = mw_H st2
    ∧ s_gradient s = calc_mw_gradient (s_coords s)
    ∧ s_energy s = calc_energy (s_coords s)
    ∧ cur_cycle st2 = cur_cycle st ∧ irc_mw_coords st2 = irc_mw_coords st
    ∧ irc_mw_gradients st2 = irc_mw_gradients st ∧ converged st2 = converged st.
Proof.
  intros Hev.
  destruct (evaluate_endpoint_cases r st) as [[_ Heq]|(x1 & g1 & _ & _ & Heq)];
    rewrite Heq in Hev; [done|]. injection Hev as <-.
  eexists _, [_; _; _; _]. cbn -[vsub madd]. rewrite <- !app_assoc.
  repeat split.
Qed.

(** X5.  A macro-step that returns leaves the cycle counter and the two
    histories of IRC points as they were (the base class appends to
    them), never clears [converged], and only appends to the DWI and to
    the calls it has made: at most two samples, at least one when the
    cycle is positive. *)
Theorem step_appends_only fuel st st' :
  step m_sqrt dwi_interpolate calc_mw_gradient calc_energy calc_mw_hessian
       hessian_update_func unweight_vec cfg fuel st = Ok st' →
  cur_cycle st' = cur_cycle st
  ∧ irc_mw_coords st' = irc_mw_coords st
  ∧ irc_mw_gradients st' = irc_mw_gradients st
  ∧ (converged st = true → converged st' = true)
  ∧ (∃ new, dwi st' = dwi st ++ new ∧ (length new ≤ 2)%nat
       ∧ ((0 < cur_cycle st)%Z → (1 ≤ length new)%nat))
  ∧ ∃ cs, calls st' = calls st ++ cs.
Proof.
  intros Hstep. destruct (step_cases fuel st st' Hstep) as (st1 & Href & _ & Hcases).
  destruct (refresh_hessian_frame _ _ _ _ _ _ _ Href) as (Hx & Hh1 & Hh2 & Hcyc & Hconv).
  destruct (refresh_hessian_effect _ _ _ _ Href) as (new1 & cs1 & Hd1 & Hc1 & Hl1 & _).
  cbn in Hx, Hh1, Hh2, Hcyc, Hconv, Hd1, Hc1, Hl1.
  assert (Hlen1 : (length new1 ≤ 1)%nat ∧ ((0 < cur_cycle st)%Z → (1 ≤ length new1)%nat)).
  { rewrite Hl1. destruct (0 <? cur_cycle st)%Z eqn:Hlt; split; lia. }
  cbv zeta in Hcases.
  destruct Hcases as [[_ ->]|(_ & st2 & corrected & Hev & _ & ->)].
  - cbn. repeat split; try done.
    + exists new1. split; [done|]. destruct Hlen1. split; [lia|done].
    + eexists. rewrite Hc1, <- !app_assoc. reflexivity.
  - destruct (evaluate_endpoint_effect _ _ _ Hev)
      as (s & cs2 & Hd2 & Hc2 & _ & _ & _ & _ & _ & Ht1 & Ht2 & Ht3 & Ht4).
    cbn. rewrite Ht1, Ht2, Ht3, Ht4, Hd2, Hc2, Hd1, Hc1.
    repeat split; try done.
    + intros Ht. rewrite Hconv. exact Ht.
    + exists (new1 ++ [s]). rewrite length_app, <- app_assoc. cbn.
      split; [done|]. split; [lia|]. intros _. lia.
    + eexists. rewrite <- !app_assoc. reflexivity.
Qed.


(** X7.  Among the calls a returning macro-step makes, the exact
    Hessian is asked for exactly when the cycle is positive,
    [hessian_recalc] is set and not 0, and it divides the cycle; with
    [hessian_recalc] [None] or 0 it is never asked for, and nothing is
    divided by zero. *)
Theorem step_exact_hessian_calls fuel st st' :
  step' fuel st = Ok st' →
  ∃ cs, calls st' = calls st ++ cs
    ∧ existsb is_calc_hessian cs
      = match hessian_recalc cfg with
        | None => false
        | Some n => (0 <? cur_cycle st)%Z && negb (n =? 0)%Z
                    && (cur_cycle st mod n =? 0)%Z
        end.
Proof.
  intros Hstep. destruct (step_cases fuel st st' Hstep) as (st1 & Href & _ & Hcases).
  destruct (refresh_hessian_effect _ _ _ _ Href) as (new1 & cs1 & _ & Hc1 & _ & Hex & _).
  cbn in Hc1, Hex.
  assert (Hdue : (0 <? cur_cycle st)%Z && recalc_due cfg (cur_cycle st)
                 = match hessian_recalc cfg with
                   | None => false
                   | Some n => (0 <? cur_cycle st)%Z && negb (n =? 0)%Z
                               && (cur_cycle st mod n =? 0)%Z
                   end).
  { unfold recalc_due. destruct (hessian_recalc cfg) as [n|].
    - by rewrite andb_assoc.
    - apply andb_false_r. }
  rewrite <- Hdue, <- Hex. cbv zeta in Hcases.
  destruct Hcases as [[_ ->]|(_ & st2 & corrected & Hev & _ & ->)].
  - exists ([CalcGradient (mw_coords st); CalcEnergy (mw_coords st)] ++ cs1).
    cbn. rewrite Hc1, <- !app_assoc. done.
  - destruct (evaluate_endpoint_effect _ _ _ Hev)
      as (s & cs2 & _ & Hc2 & Hno & _).
    exists ([CalcGradient (mw_coords st); CalcEnergy (mw_coords st)] ++ cs1 ++ cs2).
    cbn. rewrite Hc2, Hc1, <- !app_assoc. split; [done|].
    rewrite existsb_app, Hno. by rewrite orb_false_r.
Qed.

(** X8.  The histories must hold enough points: at a positive cycle
    without an exact Hessian due, [step] raises [IndexError] when either
    history has fewer than two entries ([irc_mw_coords[-2]]); and a step
    that gets past the predictor without the early return raises
    [IndexError] when either history is empty ([irc_mw_coords[-1]]). *)
Theorem step_short_history_raises fuel st :
  ((0 < cur_cycle st)%Z → recalc_due cfg (cur_cycle st) = false →
   (length (irc_mw_coords st) < 2)%nat ∨ (length (irc_mw_gradients st) < 2)%nat →
   step' fuel st = Raise IndexError)
  ∧ (∀ st1,
       refresh_hessian' (calc_mw_gradient (mw_coords st)) (calc_energy (mw_coords st))
                        (at_line_77 st) = Ok st1 →
       (0 < max_pred_steps cfg)%Z →
       returns_early' (predictor' (calc_mw_gradient (mw_coords st)) st1) = false →
       irc_mw_coords st = [] ∨ irc_mw_gradients st = [] →
       step' fuel st = Raise IndexError).
Proof.
  assert (Hlast2 : ∀ (l : list (vec F)), (length l < 2)%nat → last2 l = None).
  { intros l Hl. unfold last2. apply lookup_ge_None. rewrite length_rev. lia. }
  split.
  - intros Hc Hdue Hshort.
    unfold step, read_mw_gradient, read_energy. cbn [mw_coords log_call].
    fold (at_line_77 st).
    destruct (refresh_hessian_cases (calc_mw_gradient (mw_coords st))
                (calc_energy (mw_coords st)) (at_line_77 st))
      as [[Hc' _]|[(_ & Hdue' & _)|(_ & _ & [[_ Heq]|(x2 & g2 & Hx2 & Hg2 & _)])]].
    + cbn in Hc'. lia.
    + cbn in Hdue'. congruence.
    + by rewrite Heq.
    + unfold at_line_77 in Hx2, Hg2. cbn -[last2] in Hx2, Hg2.
      destruct Hshort as [Hs|Hs]; apply Hlast2 in Hs; congruence.
  - intros st1 Href Hmax Hearly Hempty.
    rewrite (step_unfold _ _ _ _ _ _ _ _ fuel st st1 Href Hmax).
    destruct (refresh_hessian_frame _ _ _ _ _ _ _ Href) as (_ & Hh1 & Hh2 & _).
    cbn in Hh1, Hh2.
    set (r := predictor' (calc_mw_gradient (mw_coords st)) st1) in *.
    assert (Hev : evaluate_endpoint' r st1 = Raise IndexError).
    { destruct (evaluate_endpoint_cases r st1) as [[_ Heq]|(x1 & g1 & Hx1 & Hg1 & _)];
        [done|].
      rewrite Hh1 in Hx1. rewrite Hh2 in Hg1.
      destruct Hempty as [He|He]; rewrite He in *; done. }
    assert (Hafter : ∀ st0,
              evaluate_endpoint' r st0 = evaluate_endpoint' r st1 →
              after_predictor m_sqrt dwi_interpolate calc_mw_gradient calc_energy
                hessian_update_func cfg fuel (mw_coords st1) r st0 = Raise IndexError).
    { intros st0 He. unfold after_predictor. by rewrite He, Hev. }
    unfold finish_step, on_exhausted. unfold returns_early in Hearly.
    destruct (e_exit r).
    + by apply Hafter.
    + rewrite Hearly. by apply Hafter.
Qed.
End StepMore.

(** * More about the predictor *)

Section PredictorFacts.
Context {F : Type} `{Arith F}.
Local Open Scope num_scope.

Variable m_sqrt : vec F.
Variable unweight_vec : vec F -> vec F.
Variable cfg : config F.

(** A loop left through [break]: the lengths it computed, the point it
    stopped at and the gradient it carries there. *)
Lemma euler_loop_reached init g Hm h n : ∀ coords grad lengths,
  let r := euler_loop m_sqrt cfg n init g Hm h coords grad lengths in
  e_exit r = ReachedTarget →
  ∃ below l,
    cur_lengths r = lengths ++ below ++ [l]
    ∧ (length below < n)%nat
    ∧ Forall (λ x, (step_length cfg <=? x) = false) below
    ∧ (step_length cfg <=? l) = true
    ∧ l = get_integration_length m_sqrt init (euler_mw_coords r)
    ∧ match below with
      | [] => euler_mw_coords r = coords ∧ euler_mw_grad r = grad
      | _ :: _ =>
          euler_mw_grad r = taylor_gradient g Hm (vsub (euler_mw_coords r) init)
          ∧ ∃ c' g', euler_mw_coords r = vadd c' (vdivs (vscale h (vopp g')) (norm g'))
              ∧ last below = Some (get_integration_length m_sqrt init c')
      end.
Proof.
  induction n as [|n IH]; intros coords grad lengths; [done|].
  cbn [euler_loop]. cbv zeta.
  destruct (step_length cfg <=? get_integration_length m_sqrt init coords) eqn:Hcmp.
  - intros _. exists [], (get_integration_length m_sqrt init coords). cbn.
    repeat split; [lia|constructor|done].
  - intros Hexit. specialize (IH _ _ _ Hexit).
    destruct IH as (below & l & Hl & Hlen & Hbelow & Hreach & Hlast & Hshape).
    exists (get_integration_length m_sqrt init coords :: below), l.
    rewrite Hl, <- app_assoc. cbn [app length].
    split; [done|]. split; [lia|]. split; [by constructor|].
    split; [done|]. split; [done|].
    destruct below as [|b below].
    + destruct Hshape as [Hc Hg]. rewrite Hc, Hg. split; [done|].
      by exists coords, grad.
    + destruct Hshape as [Hg (c' & g' & Hc & Hlst)]. split; [done|].
      by exists c', g'.
Qed.

(** X9.  When the predictor's loop is left through [break], the
    length computed last is the first one that meets the target, it is
    the integration length of the point the predictor ends at, and fewer
    than [max_pred_steps] Euler steps were taken.  If the very first
    test succeeds, the predictor ends at the start point with the
    gradient it was given; otherwise the gradient it carries is the
    Taylor gradient at its end point. *)
Theorem predictor_stops_at_first_arrival mw_grad st :
  let r := predictor m_sqrt unweight_vec cfg mw_grad st in
  e_exit r = ReachedTarget →
  ∃ below l,
    cur_lengths r = below ++ [l]
    ∧ (Z.of_nat (length below) < max_pred_steps cfg)%Z
    ∧ Forall (λ x, (step_length cfg <=? x) = false) below
    ∧ (step_length cfg <=? l) = true
    ∧ l = get_integration_length m_sqrt (mw_coords st) (euler_mw_coords r)
    ∧ (below = [] → euler_mw_coords r = mw_coords st ∧ euler_mw_grad r = mw_grad)
    ∧ (below ≠ [] →
       euler_mw_grad r
       = taylor_gradient mw_grad (mw_H st) (vsub (euler_mw_coords r) (mw_coords st))).
Proof.
  intros r Hexit.
  destruct (euler_loop_reached _ _ _ _ _ _ _ _ Hexit)
    as (below & l & Hl & Hlen & Hbelow & Hreach & Hlast & Hshape).
  exists below, l. fold r in Hl, Hlast, Hshape.
  split; [done|]. split; [lia|]. split; [done|]. split; [done|]. split; [done|].
  destruct below; split; try done; by destruct Hshape.
Qed.
End PredictorFacts.

(** ** Lengths in exact arithmetic *)

Section RealLengths.
Local Open Scope R_scope.

(** Cauchy-Schwarz, for arrays of any two lengths. *)
Lemma dot_square_le (a : vec R) : ∀ b : vec R,
  dot a b * dot a b <= vsum (vsquare a) * vsum (vsquare b).
Proof.
  induction a as [|x a IH]; intros [|y b].
  - unfold dot, vsum, vsquare. cbn. lra.
  - unfold dot, vsum at 1 2 3. cbn. lra.
  - unfold dot, vsum at 1 2 4. cbn. lra.
  - specialize (IH b).
    pose proof (vsum_square_nonneg a) as Ha. pose proof (vsum_square_nonneg b) as Hb.
    unfold dot, vsum, vsquare in *. cbn in *.
    set (S := foldr Rplus 0 (zip_with Rmult a b)) in *.
    set (A := foldr Rplus 0 (map (λ x, x * x) a)) in *.
    set (B := foldr Rplus 0 (map (λ x, x * x) b)) in *.
    pose proof (sqrt_sqrt A Ha) as Hp. pose proof (sqrt_sqrt B Hb) as Hq.
    pose proof (sqrt_pos A) as Hp0. pose proof (sqrt_pos B) as Hq0.
    set (p := sqrt A) in *. set (q := sqrt B) in *.
    assert (HS : - (p * q) <= S <= p * q).
    { assert (S * S <= (p * q) * (p * q)) by nra.
      assert (0 <= p * q) by nra. split; nra. }
    assert (Hcross : 2 * (x * y) * S <= x * x * B + y * y * A).
    { pose proof (Rle_0_sqr (x * q - y * p)) as H1.
      pose proof (Rle_0_sqr (x * q + y * p)) as H2. unfold Rsqr in H1, H2.
      destruct (Rle_dec 0 (x * y)) as [Hxy|Hxy].
      - assert (x * y * S <= x * y * (p * q)) by nra. nra.
      - assert (x * y * S <= x * y * (- (p * q))) by nra. nra. }
    nra.
Qed.

Lemma vsum_square_vadd (a : vec R) : ∀ b : vec R,
  vsum (vsquare (vadd a b))
  <= vsum (vsquare a) + 2 * dot a b + vsum (vsquare b).
Proof.
  induction a as [|x a IH]; intros [|y b].
  - unfold dot, vsum, vsquare, vadd. cbn. lra.
  - pose proof (vsum_square_nonneg (y :: b)) as Hb.
    unfold dot, vsum, vsquare, vadd in *. cbn in *. lra.
  - pose proof (vsum_square_nonneg (x :: a)) as Ha.
    unfold dot, vsum, vsquare, vadd in *. cbn in *. lra.
  - specialize (IH b). unfold dot, vsum, vsquare, vadd in *. cbn in *. nra.
Qed.

(** The triangle inequality of [np.linalg.norm]. *)
Lemma norm_triangle (a b : vec R) : norm (vadd a b) <= norm a + norm b.
Proof.
  pose proof (norm_nonneg a) as Ha. pose proof (norm_nonneg b) as Hb.
  pose proof (norm_nonneg (vadd a b)) as Hab.
  pose proof (norm_square a) as Ha2. pose proof (norm_square b) as Hb2.
  pose proof (norm_square (vadd a b)) as Hab2.
  pose proof (vsum_square_vadd a b) as Hsum.
  pose proof (dot_square_le a b) as Hcs.
  assert (Hdot : dot a b <= norm a * norm b).
  { assert (dot a b * dot a b <= (norm a * norm b) * (norm a * norm b)) by nra.
    assert (0 <= norm a * norm b) by nra. nra. }
  assert (norm (vadd a b) * norm (vadd a b)
          <= (norm a + norm b) * (norm a + norm b)) by nra.
  nra.
Qed.

(** Dividing by square roots of masses that are at least 1 shortens. *)
Lemma norm_vdiv_le (m : vec R) : ∀ v : vec R,
  Forall (λ x, 1 <= x) m → norm (vdiv v m) <= norm v.
Proof.
  intros v Hm. apply sqrt_le_1; try apply vsum_square_nonneg.
  revert v.
  induction Hm as [|y m Hy Hm IH]; intros [|x v].
  - unfold vsum, vsquare, vdiv. cbn. lra.
  - pose proof (vsum_square_nonneg (x :: v)) as Hv.
    unfold vsum, vsquare, vdiv in *. cbn in *. lra.
  - unfold vsum, vsquare, vdiv. cbn. lra.
  - specialize (IH v). unfold vsum, vsquare, vdiv in *. cbn in *.
    assert (Hinv : 0 < / y <= 1).
    { split; [apply Rinv_0_lt_compat; lra|].
      rewrite <- Rinv_1. apply Rinv_le_contravar; lra. }
    unfold Rdiv. set (i := / y) in *.
    assert (x * i * (x * i) <= x * x).
    { assert (i * i <= 1) by nra.
      replace (x * i * (x * i)) with (x * x * (i * i)) by ring.
      pose proof (Rle_0_sqr x) as Hx. unfold Rsqr in Hx. nra. }
    lra.
Qed.

Lemma vdiv_vadd (a : vec R) : ∀ b m : vec R,
  vdiv (vadd a b) m = vadd (vdiv a m) (vdiv b m).
Proof.
  unfold vdiv, vadd.
  induction a as [|x a IH]; intros [|y b] [|z m]; try done.
  cbn. f_equal; [unfold Rdiv; ring|apply IH].
Qed.

(** An Euler step of size [h] is at most [h] long (it is [h] long unless
    the gradient vanishes). *)
Lemma norm_euler_step_le (g : vec R) (h : R) :
  0 <= h → norm (vdivs (vscale h (vopp g)) (norm g)) <= h.
Proof.
  intros Hh. destruct (Req_dec (norm g) 0) as [H0|Hn].
  - rewrite H0. clear H0.
    assert (Hz : vsum (vsquare (vdivs (vscale h (vopp g)) 0)) = 0).
    { unfold vsum, vsquare, vdivs, vscale, vopp.
      induction g as [|x g IH]; [done|]. cbn in *. rewrite IH.
      unfold Rdiv. rewrite Rinv_0. ring. }
    unfold norm. rewrite Hz. cbn [fsqrt real_arith]. by rewrite sqrt_0.
  - rewrite norm_unit_step; done.
Qed.

(** One Euler step adds at most its size to the integration length. *)
Lemma integration_length_advance (m_sqrt init coords g : vec R) (h : R) :
  Forall (λ x, 1 <= x) m_sqrt → 0 <= h →
  get_integration_length m_sqrt init
    (vadd coords (vdivs (vscale h (vopp g)) (norm g)))
  <= get_integration_length m_sqrt init coords + h.
Proof.
  intros Hm Hh. unfold get_integration_length.
  rewrite vsub_vadd_shift, vdiv_vadd.
  pose proof (norm_triangle (vdiv (vsub coords init) m_sqrt)
                (vdiv (vdivs (vscale h (vopp g)) (norm g)) m_sqrt)) as Htri.
  pose proof (norm_vdiv_le m_sqrt (vdivs (vscale h (vopp g)) (norm g)) Hm) as Hdiv.
  pose proof (norm_euler_step_le g h Hh) as Hstep.
  lra.
Qed.
End RealLengths.

Section RealPredictorBounds.
Local Open Scope R_scope.

Variable m_sqrt : vec R.
Variable unweight_vec : vec R -> vec R.
Variable cfg : config R.

Lemma Rleb_true_inv (x y : R) : Rleb x y = true → x <= y.
Proof. unfold Rleb. by destruct (Rle_dec x y). Qed.

Lemma Rleb_false_inv (x y : R) : Rleb x y = false → y < x.
Proof. unfold Rleb. destruct (Rle_dec x y); [done|lra]. Qed.

Lemma integration_length_start (init : vec R) :
  get_integration_length m_sqrt init init = 0.
Proof.
  unfold get_integration_length, norm.
  assert (Hz : vsum (vsquare (vdiv (vsub init init) m_sqrt)) = 0).
  { unfold vsum, vsquare, vdiv, vsub. generalize m_sqrt as m.
    induction init as [|x v IH]; intros [|y m]; try done.
    cbn in *. rewrite IH. unfold Rdiv. ring. }
  rewrite Hz. cbn [fsqrt real_arith]. apply sqrt_0.
Qed.

Lemma conv_fact_at_least_2 (g : vec R) : 2 <= conv_fact unweight_vec g.
Proof. unfold conv_fact. cbv zeta. rewrite pymax_real. apply Rmax_l. Qed.

Lemma euler_step_length_product (g : vec R) :
  (0 < max_pred_steps cfg)%Z →
  IZR (max_pred_steps cfg) * euler_step_length unweight_vec cfg g
  = step_length cfg * conv_fact unweight_vec g.
Proof.
  intros Hmax. pose proof (conv_fact_at_least_2 g) as Hc.
  apply IZR_lt in Hmax. unfold euler_step_length.
  cbn [fdiv fofZ real_arith]. field. lra.
Qed.

(** X10.  The integration length is measured from the start point:
    it is 0 there, never negative, and with square roots of masses that
    are all at least 1 it is at most the distance in mass-weighted
    coordinates (the comment of lines 98-99). *)
Theorem integration_length_shortens (init cur : vec R) :
  Forall (λ m, 1 <= m) m_sqrt →
  get_integration_length m_sqrt init init = 0
  ∧ 0 <= get_integration_length m_sqrt init cur <= norm (vsub cur init).
Proof.
  intros Hm. split; [apply integration_length_start|].
  split; [apply norm_nonneg|]. by apply norm_vdiv_le.
Qed.

(** X11.  The Euler steps the predictor is allowed add up to
    [step_length * conv_fact], which is at least twice the target length
    when that is not negative. *)
Theorem euler_budget_covers_target (g : vec R) :
  (0 < max_pred_steps cfg)%Z → 0 <= step_length cfg →
  IZR (max_pred_steps cfg) * euler_step_length unweight_vec cfg g
  = step_length cfg * pymax 2 (norm (unweight_vec g) / norm g)
  ∧ 2 * step_length cfg
    <= IZR (max_pred_steps cfg) * euler_step_length unweight_vec cfg g
  ∧ 0 <= euler_step_length unweight_vec cfg g.
Proof.
  intros Hmax Hsl. pose proof (conv_fact_at_least_2 g) as Hc.
  pose proof (euler_step_length_product g Hmax) as Hprod.
  split; [exact Hprod|]. split; [nra|].
  apply IZR_lt in Hmax.
  assert (0 <= IZR (max_pred_steps cfg) * euler_step_length unweight_vec cfg g) by nra.
  nra.
Qed.

(** X12.  With square roots of masses that are all at least 1 and
    a positive target length, a predictor that leaves its loop through
    [break] has taken at least one Euler step and ends less than one
    Euler step length beyond the target. *)
Theorem predictor_overshoot_bound (g : vec R) (st : state R) :
  Forall (λ m, 1 <= m) m_sqrt →
  0 < step_length cfg → (0 < max_pred_steps cfg)%Z →
  let r := predictor m_sqrt unweight_vec cfg g st in
  e_exit r = ReachedTarget →
  let L := get_integration_length m_sqrt (mw_coords st) (euler_mw_coords r) in
  (2 ≤ length (cur_lengths r))%nat
  ∧ step_length cfg <= L < step_length cfg + euler_step_length unweight_vec cfg g.
Proof.
  intros Hm Hsl Hmax r Hexit L.
  assert (Hh : 0 <= euler_step_length unweight_vec cfg g).
  { pose proof (conv_fact_at_least_2 g) as Hc.
    pose proof (euler_step_length_product g Hmax) as Hprod.
    apply IZR_lt in Hmax.
    assert (0 <= IZR (max_pred_steps cfg) * euler_step_length unweight_vec cfg g)
      by nra.
    nra. }
  destruct (euler_loop_reached _ _ _ _ _ _ _ _ _ _ Hexit)
    as (below & l & Hl & _ & Hbelow & Hreach & Hlast & Hshape).
  change (euler_loop _ _ _ _ _ _ _ _ _ _) with r in Hl, Hlast, Hshape.
  fold L in Hlast. subst l.
  cbn [fleb real_arith] in Hreach, Hbelow.
  apply Rleb_true_inv in Hreach.
  destruct below as [|b below].
  - destruct Hshape as [Hc _]. unfold L in Hreach. rewrite Hc in Hreach.
    rewrite integration_length_start in Hreach. exfalso. lra.
  - split; [rewrite Hl; cbn [app length]; rewrite length_app; cbn; lia|].
    split; [done|].
    destruct Hshape as [_ (c' & g' & Hc & Hlst)].
    assert (Hprev : get_integration_length m_sqrt (mw_coords st) c' < step_length cfg).
    { apply last_Some_elem_of in Hlst.
      rewrite Forall_forall in Hbelow. by apply Rleb_false_inv, Hbelow. }
    unfold L. rewrite Hc.
    pose proof (integration_length_advance m_sqrt (mw_coords st) c' g'
                  (euler_step_length unweight_vec cfg g) Hm Hh) as Hadv.
    lra.
Qed.
End RealPredictorBounds.

(** ** Runs of the corrector and of the predictor on concrete inputs *)

Lemma downhill_real_step (d : list (sample R)) (c x : R) :
  micro_step downhill_real d c [x] = [(x + c)%R].
Proof.
  unfold micro_step, downhill_real, norm, vsum, vsquare, vadd, vdivs, vscale, vopp.
  cbn. replace (-1 * -1 + 0)%R with 1%R by lra. rewrite sqrt_1. f_equal. lra.
Qed.

Lemma integration_length_1d (m x0 x : R) :
  (0 < m)%R → (x0 <= x)%R →
  get_integration_length [m] [x0] [x] = ((x - x0) / m)%R.
Proof.
  intros Hm Hx. unfold get_integration_length, vdiv, vsub. cbn [zip_with].
  rewrite norm_singleton. cbn [fsub fdiv real_arith].
  apply Rabs_pos_eq. apply Rmult_le_pos; [lra|].
  apply Rlt_le, Rinv_0_lt_compat, Hm.
Qed.

(** Constant slope, [sqrt(m) = 8/155], target length 741: level 0 arrives
    with its first micro-step (of size 39), level 1 with its second (of
    size 19). *)
Example steep_walk_level0 :
  march_level [(8 / 155)%R] downhill_real 3 [] [0%R] 741%R 0
  = MarchDone [[0%R]; [(0 + 39)%R]] [(0 + 39)%R].
Proof.
  assert (Hc : corr_step_length 741%R 0 = 39%R).
  { unfold corr_step_length, points. cbn.
    change (20 * 2 ^ Z.of_nat 0 - 1)%Z with 19%Z. lra. }
  unfold march_level. rewrite Hc. cbn [march].
  rewrite !downhill_real_step. rewrite !integration_length_1d by lra.
  cbn [fltb fleb fabs fsub fofZ fmul fdiv real_arith app last2 rev lookup list_lookup].
  rewrite Rltb_false by (unfold Rabs; destruct Rcase_abs; lra).
  rewrite Rltb_true by (unfold Rabs; destruct Rcase_abs; lra).
  reflexivity.
Qed.

Example steep_walk_level1 :
  march_level [(8 / 155)%R] downhill_real 3 [] [0%R] 741%R 1
  = MarchDone [[0%R]; [(0 + 19)%R]; [(0 + 19 + 19)%R]] [(0 + 19 + 19)%R].
Proof.
  assert (Hc : corr_step_length 741%R 1 = 19%R).
  { unfold corr_step_length, points. cbn.
    change (20 * 2 ^ Z.of_nat 1 - 1)%Z with 39%Z. lra. }
  unfold march_level. rewrite Hc. cbn [march].
  rewrite !downhill_real_step. rewrite !integration_length_1d by lra.
  cbn [fltb fleb fabs fsub fofZ fmul fdiv real_arith app last2 rev lookup list_lookup].
  rewrite Rltb_false by (unfold Rabs; destruct Rcase_abs; lra).
  rewrite Rltb_false by (unfold Rabs; destruct Rcase_abs; lra).
  rewrite Rleb_false.
  2:{ unfold vsub. cbn [zip_with]. rewrite norm_singleton. cbn [fsub real_arith].
      unfold Rabs; destruct Rcase_abs; lra. }
  rewrite Rltb_true by (unfold Rabs; destruct Rcase_abs; lra).
  reflexivity.
Qed.

(** * Construction and preparation *)

Section SetupFacts.
Context {F : Type} `{Arith F}.
Local Open Scope num_scope.

Variable m_sqrt : vec F.
Variable dwi_interpolate : list (sample F) -> vec F -> F * vec F.
Variable calc_mw_gradient : vec F -> vec F.
Variable calc_energy : vec F -> F.
Variable calc_mw_hessian : vec F -> matrix F.
Variable hessian_update_func : matrix F -> vec F -> vec F -> matrix F * String.string.
Variable unweight_vec : vec F -> vec F.
Variable cfg : config F.
Variable irc_prepare : state F -> res (state F).
Variable mass_weigh_hessian : matrix F -> matrix F.

Abbreviation prepare' :=
  (prepare calc_mw_gradient calc_energy hessian_update_func irc_prepare
           mass_weigh_hessian).

(** What [prepare] leaves behind when the base class's [prepare]
    returns [st0]. *)
Lemma prepare_unfold ts st st1 :
  prepare' ts st = Ok st1 →
  ∃ st0, irc_prepare st = Ok st0
    ∧ let x := mw_coords st0 in
      let g := calc_mw_gradient x in
      let dx := vsub x (ts_mw_coords ts) in
      let dg := vsub g (ts_mw_gradient ts) in
      let H1 := madd (mass_weigh_hessian (ts_hessian ts))
                     (fst (hessian_update_func (ts_hessian ts) dx dg)) in
      let s0 := Sample x (calc_energy x) g H1 in
      dwi st1 = [s0] ∧ mw_coords st1 = x ∧ mw_H st1 = H1
      ∧ cur_cycle st1 = cur_cycle st0 ∧ converged st1 = converged st0
      ∧ irc_mw_coords st1 = irc_mw_coords st0
      ∧ irc_mw_gradients st1 = irc_mw_gradients st0
      ∧ calls st1 = calls st0 ++ [CalcGradient x; CalcEnergy x;
                                  HessianUpdate (ts_hessian ts) dx dg; DwiUpdate s0].
Proof.
  unfold prepare. destruct (irc_prepare st) as [st0|e|]; [|done|done].
  cbn -[vsub madd]. intros [= <-]. exists st0. split; [done|].
  cbn -[vsub madd]. rewrite <- !app_assoc. repeat split.
Qed.

End SetupFacts.

Section InitFacts.
Context {F : Type}.
Variable V B : Type.
Variable irc_init : list V -> gmap string V -> res B.
Variable bfgs_update : matrix F -> vec F -> vec F -> matrix F * String.string.
Variable bofill_update : matrix F -> vec F -> vec F -> matrix F * String.string.

End InitFacts.

(** ** The additional properties at concrete inputs *)

Lemma richardson_keys_triangular_witness :
  ∃ n, (n ≤ 15)%nat
    ∧ (∀ k j, is_Some (snd downhill_run !! (k, j)) ↔ (j ≤ k < n)%nat)
    ∧ match fst downhill_run with
      | Ok (Converged k _) => n = S k
      | Ok (Oscillation k _) => n = k
      | Raise _ => n = 15%nat
      | OutOfFuel => True
      end.
Proof.
  apply (richardson_keys_triangular [1%float] downhill_dwi 100 [] [0%float]
           1.1875%float (fst downhill_run) (snd downhill_run)).
  vm_compute. reflexivity.
Defined.

Lemma level_end_point_first_arrival_witness :
  let c := (1.1875%float / fofZ (20 * 2 ^ Z.of_nat 0 - 1))%num in
  ∃ m, [1.1875%float] = walk downhill_dwi [] [0%float] c m
    ∧ arrived [1%float] downhill_dwi [] [0%float] 1.1875%float c m = true
    ∧ (∀ i, (i < m)%nat →
         arrived [1%float] downhill_dwi [] [0%float] 1.1875%float c i = false)
    ∧ (∀ i, (S i < m)%nat → thrown_back downhill_dwi [] [0%float] c i = false).
Proof.
  apply (level_end_point_first_arrival [1%float] downhill_dwi 100 [] [0%float]
           1.1875%float (fst downhill_run) (snd downhill_run) 0 [1.1875%float]).
  - vm_compute. reflexivity.
  - vm_compute. reflexivity.
Defined.

Lemma oscillation_exit_thrown_back_witness :
  let c := (1.1875%float / fofZ (20 * 2 ^ Z.of_nat 0 - 1))%num in
  let run := corrector_run [1%float] zigzag_dwi 100 [0%float] 1.1875%float [] in
  (∃ m, [0%float] = walk zigzag_dwi [] [0%float] c m
     ∧ thrown_back zigzag_dwi [] [0%float] c m = true
     ∧ (∀ i, (i < m)%nat → thrown_back zigzag_dwi [] [0%float] c i = false)
     ∧ (∀ i, (i ≤ S m)%nat →
          arrived [1%float] zigzag_dwi [] [0%float] 1.1875%float c i = false))
  ∧ (∀ j, snd run !! (0%nat, j) = None)
  ∧ corrector_step [1%float] zigzag_dwi 100 [0%float] 1.1875%float [] = Ok [0%float].
Proof.
  intros c run.
  apply (oscillation_exit_thrown_back [1%float] zigzag_dwi 100 [] [0%float]
           1.1875%float (fst run) (snd run) 0 [0%float]).
  - vm_compute. reflexivity.
  - vm_compute. reflexivity.
Defined.

Lemma level1_linear_extrapolation_witness :
  (/ 100000 < sqrt (mean (vsquare (vsub [(0 + 19 + 19)%R] [(0 + 39)%R]))))%R
  ∧ ∀ v, fst (corrector_run [(8 / 155)%R] downhill_real 3 [0%R] 741%R [])
         ≠ Ok (Converged 1 v).
Proof.
  assert (Herr : (/ 100000
                  < sqrt (mean (vsquare (vsub [(0 + 19 + 19)%R] [(0 + 39)%R]))))%R).
  { unfold mean, vsum, vsquare, vsub. cbn.
    change (IZR (Z.of_nat 1)) with 1%R.
    replace (((0 + 19 + 19 - (0 + 39)) * (0 + 19 + 19 - (0 + 39)) + 0) / 1)%R
      with 1%R by lra.
    rewrite sqrt_1. lra. }
  split; [exact Herr|].
  exact (proj2 (level1_linear_extrapolation [(8 / 155)%R] downhill_real 3 []
                  [0%R] 741%R _ _ _ _ steep_walk_level0 steep_walk_level1) Herr).
Defined.

Lemma step_appends_only_witness :
  cur_cycle bowl_end = cur_cycle bowl_state
  ∧ irc_mw_coords bowl_end = irc_mw_coords bowl_state
  ∧ irc_mw_gradients bowl_end = irc_mw_gradients bowl_state
  ∧ (converged bowl_state = true → converged bowl_end = true)
  ∧ (∃ new, dwi bowl_end = dwi bowl_state ++ new ∧ (length new ≤ 2)%nat
       ∧ ((0 < cur_cycle bowl_state)%Z → (1 ≤ length new)%nat))
  ∧ ∃ cs, calls bowl_end = calls bowl_state ++ cs.
Proof.
  apply (step_appends_only [1%float] newest_dwi bowl_gradient bowl_energy
           bowl_hessian no_update unit_mass bowl_cfg 100 bowl_state bowl_end).
  vm_compute. reflexivity.
Defined.


Lemma step_exact_hessian_calls_witness :
  ∃ cs, calls recalc_end = calls (recalc_state 6) ++ cs
    ∧ existsb is_calc_hessian cs
      = match hessian_recalc recalc_cfg with
        | None => false
        | Some n => (0 <? cur_cycle (recalc_state 6))%Z && negb (n =? 0)%Z
                    && (cur_cycle (recalc_state 6) mod n =? 0)%Z
        end.
Proof.
  apply (step_exact_hessian_calls [1%float] newest_dwi bowl_gradient bowl_energy
           bowl_hessian no_update unit_mass recalc_cfg 100 (recalc_state 6)
           recalc_end).
  vm_compute. reflexivity.
Defined.

Lemma step_short_history_raises_witness :
  bowl_step 100 short_history_state = Raise IndexError
  ∧ bowl_step 100 empty_history_state = Raise IndexError.
Proof.
  split.
  - apply (proj1 (step_short_history_raises [1%float] newest_dwi bowl_gradient
                    bowl_energy bowl_hessian no_update unit_mass bowl_cfg 100
                    short_history_state)).
    + reflexivity.
    + reflexivity.
    + left. cbn. lia.
  - apply (proj2 (step_short_history_raises [1%float] newest_dwi bowl_gradient
                    bowl_energy bowl_hessian no_update unit_mass bowl_cfg 100
                    empty_history_state) (at_line_77 empty_history_state)).
    + reflexivity.
    + reflexivity.
    + vm_compute. reflexivity.
    + left. reflexivity.
Defined.

Lemma predictor_stops_at_first_arrival_witness :
  let r := predictor [1%float] unit_mass bowl_cfg [2%float] bowl_state in
  ∃ below l,
    cur_lengths r = below ++ [l]
    ∧ (Z.of_nat (length below) < max_pred_steps bowl_cfg)%Z
    ∧ Forall (λ x, (step_length bowl_cfg <=? x)%num = false) below
    ∧ (step_length bowl_cfg <=? l)%num = true
    ∧ l = get_integration_length [1%float] (mw_coords bowl_state) (euler_mw_coords r)
    ∧ (below = [] → euler_mw_coords r = mw_coords bowl_state
                    ∧ euler_mw_grad r = [2%float])
    ∧ (below ≠ [] →
       euler_mw_grad r
       = taylor_gradient [2%float] (mw_H bowl_state)
           (vsub (euler_mw_coords r) (mw_coords bowl_state))).
Proof.
  apply (predictor_stops_at_first_arrival [1%float] unit_mass bowl_cfg [2%float]
           bowl_state).
  vm_compute. reflexivity.
Defined.

Lemma integration_length_shortens_witness :
  get_integration_length [2%R] [0%R] [0%R] = 0%R
  ∧ (0 <= get_integration_length [2%R] [0%R] [3%R] <= norm (vsub [3%R] [0%R]))%R.
Proof.
  apply (integration_length_shortens [2%R] [0%R] [3%R]).
  constructor; [lra|constructor].
Defined.

Lemma euler_budget_covers_target_witness :
  (IZR (max_pred_steps slope_cfg) * euler_step_length (λ v : vec R, v) slope_cfg [1%R]
   = step_length slope_cfg * pymax 2 (norm [1%R] / norm [1%R])
   ∧ 2 * step_length slope_cfg
     <= IZR (max_pred_steps slope_cfg)
        * euler_step_length (λ v : vec R, v) slope_cfg [1%R]
   ∧ 0 <= euler_step_length (λ v : vec R, v) slope_cfg [1%R])%R.
Proof.
  apply (euler_budget_covers_target (λ v : vec R, v) slope_cfg [1%R]).
  - reflexivity.
  - cbn. lra.
Defined.

(** The constant slope meets its target: three Euler steps of length
    1/2 are below it, the fourth test succeeds. *)
Lemma slope_reaches_target :
  e_exit (predictor [1%R] (λ v : vec R, v) slope_cfg [1%R] slope_state) = ReachedTarget.
Proof.
  assert (Hconst : ∀ s, taylor_gradient [1%R] (mw_H slope_state) s = [1%R]).
  { intros s. unfold taylor_gradient, vadd, mat_vec, dot, vsum.
    destruct s as [|x s]; cbn; f_equal; lra. }
  set (h := euler_step_length (λ v : vec R, v) slope_cfg [1%R]).
  assert (Hinit : vsub [0%R] [0%R] = vscale (INR 0) (euler_step_vec [1%R] h)).
  { by apply vsub_self_zero. }
  destruct (euler_loop_constant [1%R] slope_cfg [0%R] [1%R] (mw_H slope_state) h
              Hconst 4 0 [0%R] [] Hinit) as (m & _ & _ & _ & Hexit).
  unfold predictor. fold h.
  change (Z.to_nat (max_pred_steps slope_cfg)) with 4%nat.
  change (mw_coords slope_state) with [0%R].
  destruct (e_exit _); [done|].
  destruct Hexit as (_ & Hall & _).
  specialize (Hall 3%nat ltac:(lia)).
  unfold euler_step_size, euler_step_vec, h in Hall.
  rewrite slope_step_size in Hall. cbn in Hall. lra.
Qed.

Lemma predictor_overshoot_bound_witness :
  let r := predictor [1%R] (λ v : vec R, v) slope_cfg [1%R] slope_state in
  let L := get_integration_length [1%R] (mw_coords slope_state) (euler_mw_coords r) in
  (2 ≤ length (cur_lengths r))%nat
  ∧ (step_length slope_cfg <= L
     < step_length slope_cfg + euler_step_length (λ v : vec R, v) slope_cfg [1%R])%R.
Proof.
  apply (predictor_overshoot_bound [1%R] (λ v : vec R, v) slope_cfg [1%R] slope_state).
  - constructor; [lra|constructor].
  - cbn. lra.
  - reflexivity.
  - apply slope_reaches_target.
Defined.

